(** * Bounding-box utilities of mask_rcnn_pytorch (boxutils.cpp)

    A shallow embedding of [boxutils.cpp] and of the part of the tensor
    library it calls, followed by the properties of the overlap matrices, of
    the box refinement round trip and of the two clipping functions. *)

From Stdlib Require Import Reals Lra Lia List ZArith Arith.
From stdpp Require Import base option list gmap.
Import ListNotations.

(** ** Scalars

    A tensor element is a [float].  It is modelled as a real number, on which
    the arithmetic is exact, or as [NaN], which stands for every result that
    is not a finite number (0/0, x/0, log of a non-positive number) and which
    every operation propagates.  Rounding, overflow and the sign of an
    infinity are outside this model. *)

Inductive float : Type :=
  | Fin (r : R)
  | NaN.

Definition flift2 (f : R → R → R) (a b : float) : float :=
  match a, b with
  | Fin x, Fin y => Fin (f x y)
  | _, _ => NaN
  end.

Definition fadd : float → float → float := flift2 Rplus.
Definition fsub : float → float → float := flift2 Rminus.
Definition fmul : float → float → float := flift2 Rmult.
Definition fmax : float → float → float := flift2 Rmax.
Definition fmin : float → float → float := flift2 Rmin.

Definition fdiv (a b : float) : float :=
  match a, b with
  | Fin x, Fin y => if Req_dec_T y 0 then NaN else Fin (x / y)
  | _, _ => NaN
  end.

Definition fexp (a : float) : float :=
  match a with
  | Fin x => Fin (exp x)
  | NaN => NaN
  end.

Definition flog (a : float) : float :=
  match a with
  | Fin x => if Rlt_dec 0 x then Fin (ln x) else NaN
  | NaN => NaN
  end.

(** [clamp(lo, hi)] of the tensor library: [min(max(x, lo), hi)]. *)
Definition fclamp (lo hi x : float) : float := fmin (fmax x lo) hi.

(** [static_cast<float>] of an integer field. *)
Definition float_of_Z (z : Z) : float := Fin (IZR z).

(** ** Tensors

    A tensor value is its shape and its elements in row-major order.  Every
    tensor that [boxutils.cpp] reshapes or reads is contiguous, so strides
    are not represented.  An operation that the library rejects with an
    exception returns [None]. *)

Record Tensor : Type := mkTensor { sizes : list nat; data : list float }.

Definition numel (s : list nat) : nat := foldr Nat.mul 1 s.

Definition tab {A} (n : nat) (f : nat → A) : list A := map f (seq 0 n).

(** Element at a flat index. *)
Definition elt (t : Tensor) (q : nat) : float := nth q (data t) NaN.

Definition wf (t : Tensor) : Prop := length (data t) = numel (sizes t).

(** [t.size(d)] *)
Definition size (t : Tensor) (d : nat) : option nat := sizes t !! d.

(** [torch::zeros(s)] *)
Definition zeros (s : list nat) : Tensor :=
  mkTensor s (tab (numel s) (λ _, Fin 0)).

(** [torch::tensor(x)]: a 0-dimensional tensor. *)
Definition scalar_tensor (x : float) : Tensor := mkTensor [] [x].

(** [t.repeat({r0, r1})].  A tensor of fewer than two dimensions is first
    given leading dimensions of size 1; more than two dimensions are
    rejected. *)
Definition Tensor_repeat (r0 r1 : nat) (t : Tensor) : option Tensor :=
  ab ← match sizes t with
       | [] => Some (1, 1)
       | [b] => Some (1, b)
       | [a; b] => Some (a, b)
       | _ => None
       end;
  let a := ab.1 in
  let b := ab.2 in
  Some (mkTensor [r0 * a; r1 * b]
          (tab (r0 * a * (r1 * b))
             (λ q, elt t ((q / (r1 * b)) mod a * b + (q mod (r1 * b)) mod b)))).

(** [t.view(shape)], where one entry of [shape] may be [-1]. *)
Definition infer_size (shape : list Z) (n : nat) : option (list nat) :=
  if forallb (λ z, (-1 <=? z)%Z) shape then
    let p := numel (Z.to_nat <$> filter (λ z, z ≠ (-1)%Z) shape) in
    match length (filter (λ z, z = (-1)%Z) shape) with
    | 0 => if decide (p = n) then Some (Z.to_nat <$> shape) else None
    | 1 => if decide (p ≠ 0 ∧ n mod p = 0)
           then Some ((λ z, if decide (z = (-1)%Z) then n / p else Z.to_nat z) <$> shape)
           else None
    | _ => None
    end
  else None.

Definition view (shape : list Z) (t : Tensor) : option Tensor :=
  s ← infer_size shape (numel (sizes t));
  Some (mkTensor s (data t)).

(** [t.narrow(d, start, len)] *)
Definition narrow (d start len : nat) (t : Tensor) : option Tensor :=
  n ← sizes t !! d;
  if decide (start + len ≤ n) then
    let inner := numel (drop (S d) (sizes t)) in
    let outer := numel (take d (sizes t)) in
    Some (mkTensor (<[d := len]> (sizes t))
            (tab (outer * len * inner)
               (λ q, elt t (((q / (len * inner)) * n + start + (q / inner) mod len) * inner
                            + q mod inner))))
  else None.

(** [t[i]], that is [t.select(0, i)] *)
Definition select0 (i : nat) (t : Tensor) : option Tensor :=
  match sizes t with
  | [] => None
  | n :: s =>
      if decide (i < n)
      then Some (mkTensor s (tab (numel s) (λ e, elt t (i * numel s + e))))
      else None
  end.

(** [t.chunk(chunks, d)] *)
Definition chunk (chunks d : nat) (t : Tensor) : option (list Tensor) :=
  n ← sizes t !! d;
  if decide (chunks = 0) then None
  else
    let split_size := (n + chunks - 1) / chunks in
    if decide (split_size = 0) then mapM (λ _, narrow d 0 0 t) (seq 0 chunks)
    else mapM (λ k, narrow d (k * split_size) (Nat.min split_size (n - k * split_size)) t)
              (seq 0 (Nat.max ((n + split_size - 1) / split_size) 1)).

(** Broadcasting.  Shapes are aligned at their last dimension, so both
    functions work on reversed shapes.  [bshape] is the broadcast shape;
    [bindex rs ra q] is the flat index, in an operand of (reversed) shape
    [ra], of the element used at flat index [q] of the result. *)
Fixpoint bshape (ra rb : list nat) : option (list nat) :=
  match ra, rb with
  | [], _ => Some rb
  | _, [] => Some ra
  | m :: ra', n :: rb' =>
      rest ← bshape ra' rb';
      if decide (m = n) then Some (m :: rest)
      else if decide (m = 1) then Some (n :: rest)
      else if decide (n = 1) then Some (m :: rest)
      else None
  end.

Fixpoint bindex (rs ra : list nat) (q : nat) : nat :=
  match rs, ra with
  | n :: rs', m :: ra' =>
      (if decide (m = 1) then 0 else q mod n) + m * bindex rs' ra' (q / n)
  | _, _ => 0
  end.

(** An elementwise binary operation on two tensors. *)
Definition map2T (op : float → float → float) (a b : Tensor) : option Tensor :=
  rs ← bshape (rev (sizes a)) (rev (sizes b));
  Some (mkTensor (rev rs)
          (tab (numel rs)
             (λ q, op (elt a (bindex rs (rev (sizes a)) q))
                      (elt b (bindex rs (rev (sizes b)) q))))).

(** The same written into the left operand ([a += b], [a *= b]): the result
    must have the shape of [a]. *)
Definition map2T_ (op : float → float → float) (a b : Tensor) : option Tensor :=
  r ← map2T op a b;
  if decide (sizes r = sizes a) then Some r else None.

Definition mapT (f : float → float) (t : Tensor) : Tensor :=
  mkTensor (sizes t) (f <$> data t).

Definition Tensor_max := map2T fmax.
Definition Tensor_min := map2T fmin.
Definition Tensor_add := map2T fadd.
Definition Tensor_sub := map2T fsub.
Definition Tensor_mul := map2T fmul.
Definition Tensor_div := map2T fdiv.
Definition Tensor_exp := mapT fexp.
Definition Tensor_log := mapT flog.
Definition Tensor_clamp (lo hi : float) := mapT (fclamp lo hi).
(** [x * t] for a scalar [x] *)
Definition scalar_mul (x : float) := mapT (fmul x).

(** [t.squeeze()]: every dimension of size 1 is removed. *)
Definition squeeze (t : Tensor) : Tensor :=
  mkTensor (filter (λ n, n ≠ 1) (sizes t)) (data t).

(** [t.squeeze(d)]: dimension [d] is removed when its size is 1. *)
Definition squeeze_dim (d : nat) (t : Tensor) : option Tensor :=
  n ← sizes t !! d;
  Some (mkTensor (if decide (n = 1) then delete d (sizes t) else sizes t) (data t)).

(** [torch::stack(ts, d)]: the tensors must have one shape, and [d] at most
    their number of dimensions. *)
Definition stack (ts : list Tensor) (d : nat) : option Tensor :=
  match ts with
  | [] => None
  | t0 :: _ =>
      let s := sizes t0 in
      if decide (Forall (λ t, sizes t = s) ts ∧ d ≤ length s) then
        let k := length ts in
        let inner := numel (drop d s) in
        Some (mkTensor (take d s ++ k :: drop d s)
                (tab (numel (take d s) * k * inner)
                   (λ q, elt (nth ((q / inner) mod k) ts t0)
                             (q / (k * inner) * inner + q mod inner))))
      else None
  end.

(** [t.narrow(d, start, len) = src]: assignment to a temporary view copies
    [src], broadcast to the shape of the view, into the elements of [t]
    that the view covers. *)
Definition narrow_copy (d start len : nat) (t src : Tensor) : option Tensor :=
  n ← sizes t !! d;
  if decide (start + len ≤ n) then
    let vs := <[d := len]> (sizes t) in
    rs ← bshape (rev vs) (rev (sizes src));
    if decide (rs = rev vs) then
      let inner := numel (drop (S d) (sizes t)) in
      Some (mkTensor (sizes t)
              (tab (numel (sizes t))
                 (λ p, let k := (p / inner) mod n in
                       if decide (start ≤ k < start + len)
                       then elt src (bindex rs (rev (sizes src))
                                       ((p / (n * inner) * len + (k - start)) * inner
                                        + p mod inner))
                       else elt t p)))
    else None
  else None.

(** A counted loop [for (i = start; i < start + count; ++i)]. *)
Fixpoint for_range {St} (i count : nat) (body : nat → St → option St) (s : St) : option St :=
  match count with
  | 0 => Some s
  | S c => s' ← body i s; for_range (S i) c body s'
  end.

(** ** boxutils.cpp *)

Definition BBoxOverlaps (boxes1 boxes2 : Tensor) : option Tensor :=
  (* 1. Tile boxes2 and repeat boxes1 *)
  boxes1_repeat ← size boxes2 0;
  boxes2_repeat ← size boxes1 0;
  boxes1 ← Tensor_repeat 1 boxes1_repeat boxes1 ≫= view [-1; 4]%Z;
  boxes2 ← Tensor_repeat boxes2_repeat 1 boxes2;
  (* 2. Compute intersections *)
  b1 ← chunk 4 1 boxes1;
  b2 ← chunk 4 1 boxes2;
  b1_0 ← b1 !! 0; b1_1 ← b1 !! 1; b1_2 ← b1 !! 2; b1_3 ← b1 !! 3;
  b2_0 ← b2 !! 0; b2_1 ← b2 !! 1; b2_2 ← b2 !! 2; b2_3 ← b2 !! 3;
  y1 ← Tensor_max b1_0 b2_0 ≫= narrow 1 0 1;
  x1 ← Tensor_max b1_1 b2_1 ≫= narrow 1 0 1;
  y2 ← Tensor_min b1_2 b2_2 ≫= narrow 1 0 1;
  x2 ← Tensor_min b1_3 b2_3 ≫= narrow 1 0 1;
  y1_size ← size y1 0;
  let zeros := zeros [y1_size; 1] in
  w ← Tensor_sub x2 x1 ≫= λ d, Tensor_max d zeros;
  h ← Tensor_sub y2 y1 ≫= λ d, Tensor_max d zeros;
  intersection ← Tensor_mul w h;
  (* 3. Compute unions *)
  b1_area ← (l ← Tensor_sub b1_2 b1_1; r ← Tensor_sub b1_3 b1_0; Tensor_mul l r);
  b2_area ← (l ← Tensor_sub b2_2 b2_1; r ← Tensor_sub b2_3 b2_0; Tensor_mul l r);
  box_union ← (a1 ← narrow 1 0 1 b1_area; a2 ← narrow 1 0 1 b2_area;
               s ← Tensor_add a1 a2; Tensor_sub s intersection);
  (* 4. Compute IoU and reshape *)
  iou ← Tensor_div intersection box_union;
  view [Z.of_nat boxes2_repeat; Z.of_nat boxes1_repeat] iou.

Definition ComputeIou (box boxes box_area boxes_area : Tensor) : option Tensor :=
  y1 ← (b ← select0 0 box; c ← narrow 1 0 1 boxes; Tensor_max b c);
  y2 ← (b ← select0 2 box; c ← narrow 1 2 1 boxes; Tensor_min b c);
  x1 ← (b ← select0 1 box; c ← narrow 1 1 1 boxes; Tensor_max b c);
  x2 ← (b ← select0 3 box; c ← narrow 1 3 1 boxes; Tensor_min b c);
  intersection ← (w ← Tensor_sub x2 x1 ≫= λ d, Tensor_max d (scalar_tensor (Fin 0));
                  h ← Tensor_sub y2 y1 ≫= λ d, Tensor_max d (scalar_tensor (Fin 0));
                  Tensor_mul w h);
  union_ ← Tensor_add box_area boxes_area ≫= λ s, Tensor_sub s intersection;
  Tensor_div intersection union_.

(** The area of every row: [(t[:,2] - t[:,0]) * (t[:,3] - t[:,1])]. *)
Definition box_areas (t : Tensor) : option Tensor :=
  c2 ← narrow 1 2 1 t; c0 ← narrow 1 0 1 t;
  c3 ← narrow 1 3 1 t; c1 ← narrow 1 1 1 t;
  h ← Tensor_sub c2 c0; w ← Tensor_sub c3 c1;
  Tensor_mul h w.

Definition BBoxOverlapsLoops (boxes1 boxes2 : Tensor) : option Tensor :=
  area1 ← box_areas boxes1;
  area2 ← box_areas boxes2;
  n1 ← size boxes1 0;
  n2 ← size boxes2 0;
  let overlaps := zeros [n1; n2] in
  count ← size overlaps 1;
  for_range 0 count
    (λ i overlaps,
       box2 ← select0 i boxes2;
       area2_i ← select0 i area2;
       iou ← ComputeIou box2 boxes1 area2_i area1;
       narrow_copy 1 i 1 overlaps iou)
    overlaps.

(** Height, width and centre of every row, shared by the next two
    functions. *)
Definition center_form (box : Tensor) : option (Tensor * Tensor * Tensor * Tensor) :=
  height ← (c2 ← narrow 1 2 1 box; c0 ← narrow 1 0 1 box; Tensor_sub c2 c0);
  width ← (c3 ← narrow 1 3 1 box; c1 ← narrow 1 1 1 box; Tensor_sub c3 c1);
  center_y ← (c0 ← narrow 1 0 1 box; Tensor_add c0 (scalar_mul (Fin (1 / 2)) height));
  center_x ← (c1 ← narrow 1 1 1 box; Tensor_add c1 (scalar_mul (Fin (1 / 2)) width));
  Some (height, width, center_y, center_x).

Definition BoxRefinement (box gt_box : Tensor) : option Tensor :=
  hwyx ← center_form box;
  let '(height, width, center_y, center_x) := hwyx in
  gt ← center_form gt_box;
  let '(gt_height, gt_width, gt_center_y, gt_center_x) := gt in
  dy ← Tensor_sub gt_center_y center_y ≫= λ d, Tensor_div d height;
  dx ← Tensor_sub gt_center_x center_x ≫= λ d, Tensor_div d width;
  dh ← Tensor_log <$> Tensor_div gt_height height;
  dw ← Tensor_log <$> Tensor_div gt_width width;
  dy ← squeeze_dim 1 dy; dx ← squeeze_dim 1 dx;
  dh ← squeeze_dim 1 dh; dw ← squeeze_dim 1 dw;
  stack [dy; dx; dh; dw] 1.

Definition ApplyBoxDeltas (boxes deltas : Tensor) : option Tensor :=
  (* Convert to y, x, h, w *)
  hwyx ← center_form boxes;
  let '(height, width, center_y, center_x) := hwyx in
  (* Apply deltas *)
  center_y ← (d ← narrow 1 0 1 deltas; m ← Tensor_mul d height; map2T_ fadd center_y m);
  center_x ← (d ← narrow 1 1 1 deltas; m ← Tensor_mul d width; map2T_ fadd center_x m);
  height ← (d ← narrow 1 2 1 deltas; map2T_ fmul height (Tensor_exp d));
  width ← (d ← narrow 1 3 1 deltas; map2T_ fmul width (Tensor_exp d));
  (* Convert back to y1, x1, y2, x2 *)
  y1 ← Tensor_sub center_y (scalar_mul (Fin (1 / 2)) height);
  x1 ← Tensor_sub center_x (scalar_mul (Fin (1 / 2)) width);
  y2 ← Tensor_add y1 height;
  x2 ← Tensor_add x1 width;
  stack [squeeze y1; squeeze x1; squeeze y2; squeeze x2] 1.

(** Modelled from the spec: the struct [Window] is declared in boxutils.h,
    which is not part of the sources; it is a single box (y1, x1, y2, x2)
    whose fields the code converts with [static_cast<float>]. *)
Record Window : Type := mkWindow { w_y1 : Z; w_x1 : Z; w_y2 : Z; w_x2 : Z }.

Definition ClipBoxes (boxes : Tensor) (window : Window) : option Tensor :=
  c0 ← Tensor_clamp (float_of_Z (w_y1 window)) (float_of_Z (w_y2 window)) <$> narrow 1 0 1 boxes;
  c1 ← Tensor_clamp (float_of_Z (w_x1 window)) (float_of_Z (w_x2 window)) <$> narrow 1 1 1 boxes;
  c2 ← Tensor_clamp (float_of_Z (w_y1 window)) (float_of_Z (w_y2 window)) <$> narrow 1 2 1 boxes;
  c3 ← Tensor_clamp (float_of_Z (w_x1 window)) (float_of_Z (w_x2 window)) <$> narrow 1 3 1 boxes;
  stack [squeeze c0; squeeze c1; squeeze c2; squeeze c3] 1.

(** *** Tensors as handles

    An [at::Tensor] is a handle to shared storage.  [boxutils.cpp] writes
    through a handle in [ClipToWindow] only, so a store maps a handle to the
    tensor value it currently refers to, and the two clipping functions are
    given at the level of handles. *)

Definition handle := nat.

Definition alloc (t : Tensor) (σ : gmap nat Tensor) : handle * gmap nat Tensor :=
  let l := fresh (dom σ) in (l, <[l := t]> σ).

(** [ClipBoxes] receives a copy of the handle, rebinds its local copy to the
    stacked tensor and returns it. *)
Definition ClipBoxes_call (boxes : handle) (window : Window) (σ : gmap nat Tensor)
  : option (handle * gmap nat Tensor) :=
  t ← σ !! boxes;
  r ← ClipBoxes t window;
  Some (alloc r σ).

(** [boxes.narrow(1, c, 1) = boxes.narrow(1, c, 1).clamp(lo, hi)] *)
Definition clamp_column (boxes : handle) (c : nat) (lo hi : Z) (σ : gmap nat Tensor)
  : option (gmap nat Tensor) :=
  t ← σ !! boxes;
  src ← Tensor_clamp (float_of_Z lo) (float_of_Z hi) <$> narrow 1 c 1 t;
  t' ← narrow_copy 1 c 1 t src;
  Some (<[boxes := t']> σ).

Definition ClipToWindow (window : Window) (boxes : handle) (σ : gmap nat Tensor)
  : option (handle * gmap nat Tensor) :=
  σ ← clamp_column boxes 0 (w_y1 window) (w_y2 window) σ;
  σ ← clamp_column boxes 1 (w_x1 window) (w_x2 window) σ;
  σ ← clamp_column boxes 2 (w_y1 window) (w_y2 window) σ;
  σ ← clamp_column boxes 3 (w_x1 window) (w_x2 window) σ;
  Some (boxes, σ).

(** ** Vocabulary of the statements

    The intermediate tensors of [boxutils.cpp] are columns ([K]x1), vectors
    and box sets ([K]x4), described here by the function that gives their
    elements. *)

Definition col (K : nat) (f : nat → float) : Tensor := mkTensor [K; 1] (tab K f).
Definition vect (K : nat) (f : nat → float) : Tensor := mkTensor [K] (tab K f).

(** A box set of [K] rows: a [K]x4 tensor. *)
Definition is_boxes (t : Tensor) (K : nat) : Prop :=
  sizes t = [K; 4] ∧ length (data t) = K * 4.

(** Coordinate [c] of row [p] of a box set. *)
Definition coord (t : Tensor) (p c : nat) : float := elt t (p * 4 + c).

(** A box: its coordinates in the order (y1, x1, y2, x2). *)
Record Box : Type := mkBox { b_y1 : float; b_x1 : float; b_y2 : float; b_x2 : float }.

(** Row [p] of a box set. *)
Definition box_at (t : Tensor) (p : nat) : Box :=
  mkBox (coord t p 0) (coord t p 1) (coord t p 2) (coord t p 3).

(** Entry [(i, j)] of a matrix. *)
Definition entry (t : Tensor) (i j : nat) : float :=
  match sizes t with
  | [_; c] => elt t (i * c + j)
  | _ => NaN
  end.

(** The overlap of two boxes as the specification words it (4.1, steps 2
    to 4): the area of the intersection rectangle, clamped at zero, ... *)
Definition intersection_area (a b : Box) : float :=
  fmul (fmax (fsub (fmin (b_x2 a) (b_x2 b)) (fmax (b_x1 a) (b_x1 b))) (Fin 0))
       (fmax (fsub (fmin (b_y2 a) (b_y2 b)) (fmax (b_y1 a) (b_y1 b))) (Fin 0)).

(** ... the area of a box, [(y2 - y1) * (x2 - x1)], ... *)
Definition area (a : Box) : float :=
  fmul (fsub (b_y2 a) (b_y1 a)) (fsub (b_x2 a) (b_x1 a)).

(** ... and intersection over union, with the areas of the two rectangles. *)
Definition IoU (a b : Box) : float :=
  fdiv (intersection_area a b) (fsub (fadd (area a) (area b)) (intersection_area a b)).

(** The area term of [BBoxOverlaps] (lines 26 and 27):
    [(b[2] - b[1]) * (b[3] - b[0])]. *)
Definition chunk_area (a : Box) : float :=
  fmul (fsub (b_y2 a) (b_x1 a)) (fsub (b_x2 a) (b_y1 a)).

(** The value [BBoxOverlaps] computes for one pair-row. *)
Definition overlap_value (a b : Box) : float :=
  fdiv (intersection_area a b)
       (fsub (fadd (chunk_area a) (chunk_area b)) (intersection_area a b)).

(** The matrix of [BBoxOverlapsLoops] after the columns below [i] have been
    written. *)
Definition loops_state (b1 b2 : Tensor) (N M i : nat) : Tensor :=
  mkTensor [N; M]
    (tab (N * M) (λ q, if decide (q mod M < i)
                       then IoU (box_at b2 (q mod M)) (box_at b1 (q / M))
                       else Fin 0)).

(** Centre form of one row, as [center_form] computes it. *)
Definition height (a : Box) : float := fsub (b_y2 a) (b_y1 a).
Definition width (a : Box) : float := fsub (b_x2 a) (b_x1 a).
Definition center_y (a : Box) : float := fadd (b_y1 a) (fmul (Fin (1 / 2)) (height a)).
Definition center_x (a : Box) : float := fadd (b_x1 a) (fmul (Fin (1 / 2)) (width a)).

(** The four deltas of [BoxRefinement] for one row. *)
Definition refine_dy (a g : Box) : float := fdiv (fsub (center_y g) (center_y a)) (height a).
Definition refine_dx (a g : Box) : float := fdiv (fsub (center_x g) (center_x a)) (width a).
Definition refine_dh (a g : Box) : float := flog (fdiv (height g) (height a)).
Definition refine_dw (a g : Box) : float := flog (fdiv (width g) (width a)).

(** The four coordinates of [ApplyBoxDeltas] for one row and its deltas. *)
Definition applied_height (a : Box) (dh : float) : float := fmul (height a) (fexp dh).
Definition applied_width (a : Box) (dw : float) : float := fmul (width a) (fexp dw).
Definition applied_y1 (a : Box) (dy dh : float) : float :=
  fsub (fadd (center_y a) (fmul dy (height a))) (fmul (Fin (1 / 2)) (applied_height a dh)).
Definition applied_x1 (a : Box) (dx dw : float) : float :=
  fsub (fadd (center_x a) (fmul dx (width a))) (fmul (Fin (1 / 2)) (applied_width a dw)).
Definition applied_y2 (a : Box) (dy dh : float) : float :=
  fadd (applied_y1 a dy dh) (applied_height a dh).
Definition applied_x2 (a : Box) (dx dw : float) : float :=
  fadd (applied_x1 a dx dw) (applied_width a dw).

(** A [K]x4 tensor given by its four columns. *)
Definition of_columns (K : nat) (f0 f1 f2 f3 : nat → float) : Tensor :=
  mkTensor [K; 4] (tab (K * 4) (λ q, nth (q mod 4) [f0; f1; f2; f3] f0 (q / 4))).

(** The clamp of a y-coordinate and of an x-coordinate to a window. *)
Definition clamp_y (window : Window) : float → float :=
  fclamp (float_of_Z (w_y1 window)) (float_of_Z (w_y2 window)).
Definition clamp_x (window : Window) : float → float :=
  fclamp (float_of_Z (w_x1 window)) (float_of_Z (w_x2 window)).

(** The box set clamped to a window, coordinate by coordinate. *)
Definition clipped (boxes : Tensor) (window : Window) (N : nat) : Tensor :=
  of_columns N (λ p, clamp_y window (coord boxes p 0)) (λ p, clamp_x window (coord boxes p 1))
               (λ p, clamp_y window (coord boxes p 2)) (λ p, clamp_x window (coord boxes p 3)).

(** Order on floats: a comparison with [NaN] is false. *)
Definition flt (a b : float) : Prop :=
  match a, b with
  | Fin x, Fin y => (x < y)%R
  | _, _ => False
  end.

(** The same for less-or-equal. *)
Definition fle (a b : float) : Prop :=
  match a, b with
  | Fin x, Fin y => (x <= y)%R
  | _, _ => False
  end.

(** A float that is a number. *)
Definition is_number (a : float) : Prop := a ≠ NaN.

(** Two boxes are disjoint when their intersection rectangle has
    non-positive width or height. *)
Definition disjoint (a b : Box) : Prop :=
  fle (fsub (fmin (b_x2 a) (b_x2 b)) (fmax (b_x1 a) (b_x1 b))) (Fin 0)
  ∨ fle (fsub (fmin (b_y2 a) (b_y2 b)) (fmax (b_y1 a) (b_y1 b))) (Fin 0).

(** A box of positive height and width. *)
Definition positive_size (a : Box) : Prop :=
  flt (Fin 0) (height a) ∧ flt (Fin 0) (width a).

(** Column [c] of four columns replaced by its clamped values. *)
Definition clamp_if (c k : nat) (lo hi : Z) (f : nat → float) : nat → float :=
  if decide (k = c) then λ p, fclamp (float_of_Z lo) (float_of_Z hi) (f p) else f.

(** Every coordinate of a box set lies in the window. *)
Definition in_window (t : Tensor) (window : Window) (N : nat) : Prop :=
  ∀ p, p < N →
    fle (float_of_Z (w_y1 window)) (coord t p 0) ∧ fle (coord t p 0) (float_of_Z (w_y2 window))
    ∧ fle (float_of_Z (w_x1 window)) (coord t p 1) ∧ fle (coord t p 1) (float_of_Z (w_x2 window))
    ∧ fle (float_of_Z (w_y1 window)) (coord t p 2) ∧ fle (coord t p 2) (float_of_Z (w_y2 window))
    ∧ fle (float_of_Z (w_x1 window)) (coord t p 3) ∧ fle (coord t p 3) (float_of_Z (w_x2 window)).

(** A box with integer coordinates, and the box set with the given rows. *)
Definition box (y1 x1 y2 x2 : Z) : Box :=
  mkBox (float_of_Z y1) (float_of_Z x1) (float_of_Z y2) (float_of_Z x2).

Definition box_set (rows : list Box) : Tensor :=
  mkTensor [length rows; 4] (flat_map (λ a, [b_y1 a; b_x1 a; b_y2 a; b_x2 a]) rows).

(** A float that is a number other than zero. *)
Definition nonzero (u : float) : Prop := ∃ r, u = Fin r ∧ r ≠ 0%R.

(** A box whose corners are in order: y1 <= y2 and x1 <= x2. *)
Definition well_formed (a : Box) : Prop :=
  fle (b_y1 a) (b_y2 a) ∧ fle (b_x1 a) (b_x2 a).

(** A box one of whose corners lies on the diagonal: x1 = y1 or x2 = y2. *)
Definition aligned (a : Box) : Prop :=
  b_x1 a = b_y1 a ∨ b_x2 a = b_y2 a.

(** A box set all of whose coordinates are numbers. *)
Definition numbers (t : Tensor) (N : nat) : Prop :=
  ∀ p c, p < N → c < 4 → is_number (coord t p c).


(** Inputs of the examples: two box sets of two rows, a set of deltas, a
    window and a store that holds the first box set at handle 0. *)
Definition sample_boxes : Tensor := box_set [box 0 0 10 10; box 5 5 15 20].
Definition sample_targets : Tensor := box_set [box 2 2 6 6; box 0 1 30 9].
Definition sample_deltas : Tensor := box_set [box 0 0 0 0; box 1 0 0 1].
Definition sample_window : Window := mkWindow 0 0 10 10.
Definition sample_store : gmap nat Tensor := {[0 := sample_boxes]}.

(** ** Tactics *)

#[local] Arguments Nat.div : simpl never.
#[local] Arguments Nat.modulo : simpl never.
#[local] Arguments Nat.mul : simpl never.
#[local] Arguments bindex : simpl never.

(** Runs the error monad over results that are known. *)
Ltac obind :=
  cbn [mbind option_bind mret option_ret fmap option_fmap option_map lookup list_lookup].

(** Evaluation of an expression on concrete numbers: the cases of [Rmax],
    [Rmin] and of the tests on real numbers are decided by linear
    arithmetic, innermost first. *)
Ltac no_case t :=
  lazymatch t with
  | context [Rle_dec _ _] => fail
  | _ => idtac
  end.

Ltac float_cases :=
  unfold Rmax, Rmin;
  repeat match goal with
    | |- context [Rle_dec ?a ?b] =>
        no_case a; no_case b; destruct (Rle_dec a b); try (exfalso; lra)
    end;
  repeat match goal with
    | |- context [Req_dec_T ?a ?b] => destruct (Req_dec_T a b); try (exfalso; lra)
    | |- context [Rlt_dec ?a ?b] => destruct (Rlt_dec a b); try (exfalso; lra)
    end.

(** Evaluates the tensor layer of a closed term and leaves the expressions
    on real numbers. *)
Ltac eval_rows :=
  cbv -[Rplus Rminus Rmult Rdiv Rinv Ropp Rmax Rmin IZR Req_dec_T Rlt_dec Rle_dec
        ln exp Rle Rlt].

(** Reduces an equation between evaluated tensors or floats to equations
    between real numbers, and decides those. *)
Ltac to_real :=
  repeat first
    [ reflexivity
    | apply (f_equal (@Some Tensor))
    | apply (f_equal (mkTensor _))
    | apply (f_equal2 (@cons float))
    | apply (f_equal Fin) ].

Ltac real_eq := first [lra | field; lra | field].

Ltac float_eval := eval_rows; float_cases; to_real; try real_eq.

(** The intersection of disjoint boxes is 0, and 0 divided by a union that
    is a number other than zero is 0. *)
Ltac disjoint_zero a b :=
  destruct a as [[ay1|] [ax1|] [ay2|] [ax2|]], b as [[by1|] [bx1|] [by2|] [bx2|]];
  unfold disjoint, nonzero, IoU, overlap_value, area, chunk_area, intersection_area; simpl;
  intros Hd (u & Hu & Hne); try discriminate Hu; injection Hu as Hu;
  match goal with
  | |- context [(Rmax ?w 0 * Rmax ?h 0)%R] =>
      assert (Rmax w 0 * Rmax h 0 = 0)%R as ->
        by (destruct Hd as [Hd | Hd];
            [rewrite (Rmax_right w 0) by done | rewrite (Rmax_right h 0) by done]; lra)
  end;
  destruct (Req_dec_T _ _); [exfalso; lra |]; f_equal; unfold Rdiv; lra.

(** ** Tabulated lists *)

Lemma tab_length {A} n (f : nat → A) : length (tab n f) = n.
Proof. unfold tab. by rewrite length_map, length_seq. Qed.

Lemma nth_tab {A} n (f : nat → A) q d : q < n → nth q (tab n f) d = f q.
Proof.
  intros Hq. unfold tab.
  rewrite (nth_indep _ d (f 0)) by (rewrite length_map, length_seq; lia).
  rewrite (map_nth f), seq_nth; [done | lia].
Qed.

Lemma tab_ext {A} n (f g : nat → A) : (∀ q, q < n → f q = g q) → tab n f = tab n g.
Proof.
  intros H. unfold tab. apply map_ext_in. intros q Hq.
  apply in_seq in Hq. apply H. lia.
Qed.

Lemma tab_ext_n {A} n m (f g : nat → A) :
  n = m → (∀ q, q < n → f q = g q) → tab n f = tab m g.
Proof. intros <-. apply tab_ext. Qed.

Lemma fmap_tab {A B} (h : A → B) n (f : nat → A) : h <$> tab n f = tab n (λ q, h (f q)).
Proof. unfold tab. by rewrite <- list_fmap_compose. Qed.

Lemma tab_1 {A} (f : nat → A) : tab 1 f = [f 0].
Proof. reflexivity. Qed.

Lemma tab_nth {A} (l : list A) d : tab (length l) (λ q, nth q l d) = l.
Proof.
  apply (nth_ext _ _ d d).
  - apply tab_length.
  - intros q Hq. rewrite tab_length in Hq. by rewrite nth_tab.
Qed.

(** ** Column tensors and box sets *)

Lemma boxes_eta t K :
  is_boxes t K → t = mkTensor [K; 4] (tab (K * 4) (λ q, coord t (q / 4) (q mod 4))).
Proof.
  intros [Hs Hd]. destruct t as [s d]; simpl in *. subst s. f_equal.
  rewrite <- (tab_nth d NaN) at 1. rewrite Hd. apply tab_ext. intros q _.
  unfold coord, elt; simpl. f_equal. pose proof (Nat.div_mod_eq q 4). lia.
Qed.

Lemma narrow_boxes t K c :
  is_boxes t K → c < 4 → narrow 1 c 1 t = Some (col K (λ p, coord t p c)).
Proof.
  intros [Hs _] Hc. unfold narrow. rewrite Hs. simpl.
  rewrite decide_True by lia. unfold col. do 2 f_equal.
  apply tab_ext_n; [lia |]. intros q _. unfold coord. f_equal.
  rewrite !Nat.div_1_r, !Nat.mod_1_r. lia.
Qed.

Lemma narrow_col K f : narrow 1 0 1 (col K f) = Some (col K f).
Proof.
  unfold narrow, col. simpl. do 2 f_equal.
  apply tab_ext_n; [lia |]. intros q Hq.
  rewrite !Nat.div_1_r, !Nat.mod_1_r. unfold elt; simpl.
  rewrite nth_tab by lia. f_equal. lia.
Qed.

Lemma bindex_col K q : q < K → bindex [1; K] [1; K] q = q.
Proof.
  intros Hq. unfold bindex. rewrite Nat.div_1_r.
  rewrite decide_True by done.
  destruct (decide (K = 1)); [lia |]. rewrite Nat.mod_small by lia. lia.
Qed.

Lemma bindex_nil rs q : bindex rs [] q = 0.
Proof. by destruct rs. Qed.

Lemma bindex_one K q : bindex [1; K] [1] q = 0.
Proof. unfold bindex. rewrite decide_True by done. lia. Qed.

Lemma map2T_col op K f g :
  map2T op (col K f) (col K g) = Some (col K (λ p, op (f p) (g p))).
Proof.
  unfold map2T, col. simpl. rewrite decide_True by done. simpl.
  do 2 f_equal. apply tab_ext_n; [lia |]. intros q Hq. assert (q < K) by lia.
  rewrite bindex_col by done. unfold elt; simpl. by rewrite !nth_tab.
Qed.

Lemma map2T_col_scalar op K f x :
  map2T op (col K f) (scalar_tensor x) = Some (col K (λ p, op (f p) x)).
Proof.
  unfold map2T, col, scalar_tensor. simpl.
  do 2 f_equal. apply tab_ext_n; [lia |]. intros q Hq. assert (q < K) by lia.
  rewrite bindex_col, bindex_nil by done. unfold elt; simpl. by rewrite nth_tab.
Qed.

Lemma map2T_scalar_col op K g x :
  map2T op (mkTensor [] [x]) (col K g) = Some (col K (λ p, op x (g p))).
Proof.
  unfold map2T, col. simpl.
  do 2 f_equal. apply tab_ext_n; [lia |]. intros q Hq. assert (q < K) by lia.
  rewrite bindex_col, bindex_nil by done. unfold elt; simpl. by rewrite nth_tab.
Qed.

Lemma map2T_one_col op K g x :
  map2T op (mkTensor [1] [x]) (col K g) = Some (col K (λ p, op x (g p))).
Proof.
  unfold map2T, col. simpl.
  do 2 f_equal. apply tab_ext_n; [lia |]. intros q Hq. assert (q < K) by lia.
  rewrite bindex_col, bindex_one by done. unfold elt; simpl. by rewrite nth_tab.
Qed.

Lemma map2T__col op K f g :
  map2T_ op (col K f) (col K g) = Some (col K (λ p, op (f p) (g p))).
Proof. unfold map2T_. rewrite map2T_col. obind. by rewrite decide_True. Qed.

Lemma mapT_col h K f : mapT h (col K f) = col K (λ p, h (f p)).
Proof. unfold mapT, col. simpl. by rewrite fmap_tab. Qed.

Lemma squeeze_dim_col K f : squeeze_dim 1 (col K f) = Some (vect K f).
Proof. reflexivity. Qed.

Lemma squeeze_col K f : K ≠ 1 → squeeze (col K f) = vect K f.
Proof.
  intros HK. unfold squeeze, col, vect. simpl. f_equal.
  rewrite filter_cons_True by done. by rewrite filter_cons_False by (intros ?; done).
Qed.

Lemma squeeze_col_1 f : squeeze (col 1 f) = mkTensor [] [f 0].
Proof. reflexivity. Qed.

(** Elementwise operations on columns, one after the other. *)
Ltac columns :=
  unfold Tensor_max, Tensor_min, Tensor_add, Tensor_sub, Tensor_mul, Tensor_div,
    Tensor_exp, Tensor_log, Tensor_clamp, scalar_mul;
  repeat (rewrite ?map2T_col, ?map2T__col, ?map2T_col_scalar, ?map2T_scalar_col,
            ?map2T_one_col, ?mapT_col, ?narrow_col, ?squeeze_dim_col; obind).

Lemma coord_tab K F p c :
  p < K → c < 4 → coord (mkTensor [K; 4] (tab (K * 4) F)) p c = F (p * 4 + c).
Proof. intros. unfold coord, elt; simpl. rewrite nth_tab; [done | lia]. Qed.

Lemma is_boxes_tab K F : is_boxes (mkTensor [K; 4] (tab (K * 4) F)) K.
Proof. split; [done | apply tab_length]. Qed.

Lemma chunk_boxes t K :
  is_boxes t K →
  chunk 4 1 t = Some [col K (λ p, coord t p 0); col K (λ p, coord t p 1);
                      col K (λ p, coord t p 2); col K (λ p, coord t p 3)].
Proof.
  intros Hb. unfold chunk. rewrite (proj1 Hb).
  change ([K; 4] !! 1) with (Some 4).
  cbn [mbind option_bind]. rewrite decide_False by done.
  change ((4 + 4 - 1) / 4) with 1. rewrite decide_False by done.
  change (seq _ _) with [0; 1; 2; 3]. cbn [mapM].
  change (0 * 1) with 0. change (1 * 1) with 1.
  change (2 * 1) with 2. change (3 * 1) with 3.
  change (Nat.min _ _) with 1.
  rewrite !(narrow_boxes t K) by (done || lia). reflexivity.
Qed.

Lemma select0_boxes t K i :
  is_boxes t K → i < K → select0 i t = Some (vect 4 (λ c, coord t i c)).
Proof.
  intros [Hs _] Hi. unfold select0. rewrite Hs, decide_True by done.
  reflexivity.
Qed.

Lemma select0_vec n f c : c < n → select0 c (vect n f) = Some (mkTensor [] [f c]).
Proof.
  intros Hc. unfold select0, vect. simpl. rewrite decide_True by done.
  do 2 f_equal. change (numel []) with 1. rewrite tab_1. f_equal.
  unfold elt; simpl. rewrite nth_tab by lia. f_equal. lia.
Qed.

Lemma select0_col K f i : i < K → select0 i (col K f) = Some (mkTensor [1] [f i]).
Proof.
  intros Hi. unfold select0, col. simpl. rewrite decide_True by done.
  do 2 f_equal. change (numel [1]) with 1. rewrite tab_1. f_equal.
  unfold elt; simpl. rewrite nth_tab by lia. f_equal. lia.
Qed.

Lemma stack_vec K f0 f1 f2 f3 :
  stack [vect K f0; vect K f1; vect K f2; vect K f3] 1
  = Some (mkTensor [K; 4] (tab (K * 4) (λ q, nth (q mod 4) [f0; f1; f2; f3] f0 (q / 4)))).
Proof.
  unfold stack. rewrite decide_True by (split; [repeat constructor | simpl; lia]).
  simpl. do 2 f_equal. apply tab_ext_n; [lia |]. intros q Hq.
  rewrite Nat.div_1_r, Nat.mod_1_r, Nat.add_0_r, Nat.mul_1_r.
  change (4 * 1) with 4. assert (q / 4 < K) by (apply Nat.Div0.div_lt_upper_bound; lia).
  pose proof (Nat.mod_upper_bound q 4 ltac:(lia)) as Hm.
  destruct (q mod 4) as [|[|[|[|?]]]]; try lia; unfold elt; simpl; by rewrite nth_tab.
Qed.

Lemma stack_scalars x0 x1 x2 x3 :
  stack [mkTensor [] x0; mkTensor [] x1; mkTensor [] x2; mkTensor [] x3] 1 = None.
Proof.
  unfold stack. rewrite decide_False; [done |]. simpl. lia.
Qed.

Lemma infer_size_explicit s :
  infer_size (Z.of_nat <$> s) (numel s) = Some s.
Proof.
  unfold infer_size.
  assert (forallb (λ z, (-1 <=? z)%Z) (Z.of_nat <$> s) = true) as ->.
  { apply forallb_forall. intros z Hz. apply in_map_iff in Hz as (n & <- & _).
    apply Z.leb_le. lia. }
  assert (∀ s' : list nat,
            filter (λ z : Z, z ≠ (-1)%Z) (Z.of_nat <$> s') = Z.of_nat <$> s') as Hne.
  { induction s' as [|n s' IH]; [done |]. rewrite fmap_cons.
    rewrite filter_cons_True by lia. by rewrite IH. }
  assert (∀ s' : list nat, filter (λ z : Z, z = (-1)%Z) (Z.of_nat <$> s') = []) as He.
  { induction s' as [|n s' IH]; [done |]. rewrite fmap_cons.
    rewrite filter_cons_False by lia. by rewrite IH. }
  rewrite Hne, He. simpl.
  assert (∀ s' : list nat, Z.to_nat <$> ((Z.of_nat <$> s') : list Z) = s') as ->.
  { induction s' as [|n s' IH]; [done |]. rewrite !fmap_cons, IH. f_equal. lia. }
  by rewrite decide_True.
Qed.

Lemma view_matrix N M f :
  view [Z.of_nat N; Z.of_nat M] (col (N * M) f) = Some (mkTensor [N; M] (tab (N * M) f)).
Proof.
  unfold view, col. simpl sizes. simpl data.
  change [Z.of_nat N; Z.of_nat M] with (Z.of_nat <$> [N; M]).
  replace (numel [N * M; 1]) with (numel [N; M]) by (unfold numel; simpl; lia).
  by rewrite infer_size_explicit.
Qed.

Lemma infer_size_rows4 n K : n = K * 4 → infer_size [-1; 4]%Z n = Some [K; 4].
Proof.
  intros ->. unfold infer_size. simpl.
  change (numel [Z.to_nat 4]) with 4.
  rewrite decide_True by (split; [lia | apply Nat.Div0.mod_mul]).
  simpl. by rewrite Nat.div_mul by lia.
Qed.

Lemma repeat_each t N M :
  is_boxes t N →
  Tensor_repeat 1 M t ≫= view [-1; 4]%Z
  = Some (mkTensor [N * M; 4] (tab (N * M * 4) (λ q, coord t (q / 4 / M) (q mod 4)))).
Proof.
  intros [Hs Hd]. unfold Tensor_repeat. rewrite Hs. simpl.
  unfold view. simpl sizes. simpl data.
  rewrite (infer_size_rows4 _ (N * M)) by (unfold numel; simpl; lia).
  simpl. do 2 f_equal. apply tab_ext_n; [lia |]. intros q Hq.
  unfold coord. f_equal.
  assert (q / (M * 4) = q / 4 / M) as -> by (rewrite Nat.Div0.div_div; f_equal; lia).
  assert (q / 4 / M < N).
  { rewrite Nat.Div0.div_div. apply Nat.Div0.div_lt_upper_bound. lia. }
  rewrite (Nat.mod_small _ N) by done. f_equal.
  rewrite (Nat.mul_comm M 4), Nat.Div0.mod_mul_r.
  rewrite (Nat.mul_comm 4), Nat.Div0.mod_add. apply Nat.Div0.mod_mod.
Qed.

Lemma repeat_tile t N M :
  is_boxes t M →
  Tensor_repeat N 1 t
  = Some (mkTensor [N * M; 4] (tab (N * M * 4) (λ q, coord t ((q / 4) mod M) (q mod 4)))).
Proof.
  intros [Hs Hd]. unfold Tensor_repeat. rewrite Hs. simpl.
  do 2 f_equal. apply tab_ext_n; [lia |]. intros q Hq.
  unfold coord. f_equal. change (1 * 4) with 4. by rewrite Nat.Div0.mod_mod.
Qed.

Lemma size_boxes t K : is_boxes t K → size t 0 = Some K.
Proof. intros [Hs _]. unfold size. by rewrite Hs. Qed.

Lemma zeros_col K : zeros [K; 1] = col K (λ _, Fin 0).
Proof. unfold zeros, col. f_equal. apply tab_ext_n; [unfold numel; simpl; lia | done]. Qed.


Lemma box_areas_boxes t K :
  is_boxes t K → box_areas t = Some (col K (λ p, area (box_at t p))).
Proof.
  intros Hb. unfold box_areas.
  rewrite !(narrow_boxes t K) by (done || lia). obind.
  columns. reflexivity.
Qed.

Lemma ComputeIou_row b1 N a :
  is_boxes b1 N →
  ComputeIou (vect 4 (λ c, nth c [b_y1 a; b_x1 a; b_y2 a; b_x2 a] NaN)) b1
             (mkTensor [1] [area a]) (col N (λ p, area (box_at b1 p)))
  = Some (col N (λ p, IoU a (box_at b1 p))).
Proof.
  intros Hb. unfold ComputeIou.
  rewrite !select0_vec by lia. rewrite !(narrow_boxes b1 N) by (done || lia). obind.
  columns. reflexivity.
Qed.

Lemma narrow_copy_col N M F g j :
  j < M →
  narrow_copy 1 j 1 (mkTensor [N; M] (tab (N * M) F)) (col N g)
  = Some (mkTensor [N; M]
            (tab (N * M) (λ p, if decide (p mod M = j) then g (p / M) else F p))).
Proof.
  intros Hj. unfold narrow_copy, col. simpl sizes.
  change ([N; M] !! 1) with (Some M). obind.
  rewrite decide_True by lia.
  change (rev (<[1:=1]> [N; M])) with [1; N]. change (rev [N; 1]) with [1; N].
  assert (bshape [1; N] [1; N] = Some [1; N]) as ->.
  { simpl. by rewrite decide_True. }
  obind. rewrite decide_True by done.
  do 2 f_equal. change (drop 2 [N; M]) with (@nil nat). change (numel []) with 1.
  apply tab_ext_n; [unfold numel; simpl; lia |]. intros p Hp.
  assert (p < N * M) as Hp' by (unfold numel in Hp; simpl in Hp; lia).
  rewrite !Nat.div_1_r, Nat.mod_1_r, !Nat.mul_1_r, Nat.add_0_r.
  destruct (decide (p mod M = j)) as [<- | Hne].
  - rewrite decide_True by lia. rewrite Nat.sub_diag, Nat.add_0_r.
    assert (p / M < N) by (apply Nat.Div0.div_lt_upper_bound; lia).
    rewrite bindex_col by done. unfold elt; simpl. by rewrite nth_tab.
  - rewrite decide_False by lia. unfold elt; simpl. by rewrite nth_tab.
Qed.

Lemma box_row_vect t i :
  vect 4 (λ c, coord t i c)
  = vect 4 (λ c, nth c [b_y1 (box_at t i); b_x1 (box_at t i);
                        b_y2 (box_at t i); b_x2 (box_at t i)] NaN).
Proof. reflexivity. Qed.




(** ** Closed forms of BoxRefinement, ApplyBoxDeltas and ClipBoxes *)

Lemma is_boxes_of_columns K f0 f1 f2 f3 : is_boxes (of_columns K f0 f1 f2 f3) K.
Proof. apply is_boxes_tab. Qed.

Lemma coord_of_columns K f0 f1 f2 f3 p c :
  p < K → c < 4 →
  coord (of_columns K f0 f1 f2 f3) p c = nth c [f0; f1; f2; f3] f0 p.
Proof.
  intros Hp Hc. unfold of_columns. rewrite coord_tab by done.
  rewrite Nat.add_comm, Nat.Div0.mod_add, Nat.div_add by lia.
  by rewrite Nat.mod_small, Nat.div_small by lia.
Qed.

Lemma of_columns_ext K f0 f1 f2 f3 g0 g1 g2 g3 :
  (∀ p, p < K → f0 p = g0 p ∧ f1 p = g1 p ∧ f2 p = g2 p ∧ f3 p = g3 p) →
  of_columns K f0 f1 f2 f3 = of_columns K g0 g1 g2 g3.
Proof.
  intros H. unfold of_columns. f_equal. apply tab_ext. intros q Hq.
  assert (q / 4 < K) as Hp by (apply Nat.Div0.div_lt_upper_bound; lia).
  destruct (H _ Hp) as (? & ? & ? & ?).
  pose proof (Nat.mod_upper_bound q 4 ltac:(lia)).
  by destruct (q mod 4) as [|[|[|[|?]]]]; try lia; simpl.
Qed.

Lemma boxes_columns t K :
  is_boxes t K →
  t = of_columns K (λ p, coord t p 0) (λ p, coord t p 1) (λ p, coord t p 2) (λ p, coord t p 3).
Proof.
  intros Hb. rewrite (boxes_eta t K Hb) at 1. unfold of_columns. f_equal.
  apply tab_ext. intros q Hq.
  pose proof (Nat.mod_upper_bound q 4 ltac:(lia)).
  by destruct (q mod 4) as [|[|[|[|?]]]]; try lia; simpl.
Qed.

Lemma center_form_boxes t K :
  is_boxes t K →
  center_form t = Some (col K (λ p, height (box_at t p)), col K (λ p, width (box_at t p)),
                        col K (λ p, center_y (box_at t p)), col K (λ p, center_x (box_at t p))).
Proof.
  intros Hb. unfold center_form.
  rewrite !(narrow_boxes t K) by (done || lia). obind.
  columns. reflexivity.
Qed.

Lemma BoxRefinement_closed box gt_box N :
  is_boxes box N → is_boxes gt_box N →
  BoxRefinement box gt_box
  = Some (of_columns N
            (λ p, refine_dy (box_at box p) (box_at gt_box p))
            (λ p, refine_dx (box_at box p) (box_at gt_box p))
            (λ p, refine_dh (box_at box p) (box_at gt_box p))
            (λ p, refine_dw (box_at box p) (box_at gt_box p))).
Proof.
  intros H1 H2. unfold BoxRefinement.
  rewrite (center_form_boxes box N), (center_form_boxes gt_box N) by done. obind.
  columns. rewrite stack_vec. reflexivity.
Qed.

Lemma ApplyBoxDeltas_columns boxes deltas N :
  is_boxes boxes N → is_boxes deltas N →
  ApplyBoxDeltas boxes deltas
  = stack [squeeze (col N (λ p, applied_y1 (box_at boxes p) (coord deltas p 0) (coord deltas p 2)));
           squeeze (col N (λ p, applied_x1 (box_at boxes p) (coord deltas p 1) (coord deltas p 3)));
           squeeze (col N (λ p, applied_y2 (box_at boxes p) (coord deltas p 0) (coord deltas p 2)));
           squeeze (col N (λ p, applied_x2 (box_at boxes p) (coord deltas p 1) (coord deltas p 3)))]
          1.
Proof.
  intros H1 H2. unfold ApplyBoxDeltas.
  rewrite (center_form_boxes boxes N) by done. obind.
  rewrite !(narrow_boxes deltas N) by (done || lia). obind.
  columns. reflexivity.
Qed.

Lemma ApplyBoxDeltas_closed boxes deltas N :
  is_boxes boxes N → is_boxes deltas N → N ≠ 1 →
  ApplyBoxDeltas boxes deltas
  = Some (of_columns N
            (λ p, applied_y1 (box_at boxes p) (coord deltas p 0) (coord deltas p 2))
            (λ p, applied_x1 (box_at boxes p) (coord deltas p 1) (coord deltas p 3))
            (λ p, applied_y2 (box_at boxes p) (coord deltas p 0) (coord deltas p 2))
            (λ p, applied_x2 (box_at boxes p) (coord deltas p 1) (coord deltas p 3))).
Proof.
  intros H1 H2 HN. rewrite (ApplyBoxDeltas_columns boxes deltas N) by done.
  rewrite !squeeze_col by done. apply stack_vec.
Qed.

Lemma ApplyBoxDeltas_single boxes deltas :
  is_boxes boxes 1 → is_boxes deltas 1 → ApplyBoxDeltas boxes deltas = None.
Proof.
  intros H1 H2. rewrite (ApplyBoxDeltas_columns boxes deltas 1) by done.
  rewrite !squeeze_col_1. apply stack_scalars.
Qed.

Lemma ClipBoxes_columns boxes window N :
  is_boxes boxes N →
  ClipBoxes boxes window
  = stack [squeeze (col N (λ p, clamp_y window (coord boxes p 0)));
           squeeze (col N (λ p, clamp_x window (coord boxes p 1)));
           squeeze (col N (λ p, clamp_y window (coord boxes p 2)));
           squeeze (col N (λ p, clamp_x window (coord boxes p 3)))] 1.
Proof.
  intros Hb. unfold ClipBoxes.
  rewrite !(narrow_boxes boxes N) by (done || lia). obind.
  columns. reflexivity.
Qed.

Lemma ClipBoxes_closed boxes window N :
  is_boxes boxes N → N ≠ 1 → ClipBoxes boxes window = Some (clipped boxes window N).
Proof.
  intros Hb HN. rewrite (ClipBoxes_columns boxes window N) by done.
  rewrite !squeeze_col by done. apply stack_vec.
Qed.

Lemma ClipBoxes_single boxes window :
  is_boxes boxes 1 → ClipBoxes boxes window = None.
Proof.
  intros Hb. rewrite (ClipBoxes_columns boxes window 1) by done.
  rewrite !squeeze_col_1. apply stack_scalars.
Qed.

(** ** Facts about scalars *)

Lemma fmax_comm a b : fmax a b = fmax b a.
Proof. destruct a, b; simpl; try done. f_equal. apply Rmax_comm. Qed.

Lemma fmin_comm a b : fmin a b = fmin b a.
Proof. destruct a, b; simpl; try done. f_equal. apply Rmin_comm. Qed.

Lemma fadd_comm a b : fadd a b = fadd b a.
Proof. destruct a, b; simpl; try done. f_equal. apply Rplus_comm. Qed.

Lemma intersection_area_comm a b : intersection_area a b = intersection_area b a.
Proof.
  unfold intersection_area.
  by rewrite (fmin_comm (b_x2 a)), (fmax_comm (b_x1 a)), (fmin_comm (b_y2 a)),
    (fmax_comm (b_y1 a)).
Qed.

(** Symmetry of the formula. *)
Lemma IoU_comm a b : IoU a b = IoU b a.
Proof.
  unfold IoU. by rewrite (intersection_area_comm a b), (fadd_comm (area a)).
Qed.

Lemma IoU_self a :
  flt (b_y1 a) (b_y2 a) → flt (b_x1 a) (b_x2 a) → IoU a a = Fin 1.
Proof.
  destruct a as [[y1|] [x1|] [y2|] [x2|]]; simpl; try done. intros Hy Hx.
  assert (0 < (x2 - x1) * (y2 - y1))%R by (apply Rmult_lt_0_compat; lra).
  assert (0 < (y2 - y1) * (x2 - x1))%R by (apply Rmult_lt_0_compat; lra).
  unfold IoU, intersection_area, area; simpl.
  float_cases; try (exfalso; nra). f_equal. field. nra.
Qed.

Lemma refine_apply a g :
  positive_size a → positive_size g →
  applied_y1 a (refine_dy a g) (refine_dh a g) = b_y1 g
  ∧ applied_x1 a (refine_dx a g) (refine_dw a g) = b_x1 g
  ∧ applied_y2 a (refine_dy a g) (refine_dh a g) = b_y2 g
  ∧ applied_x2 a (refine_dx a g) (refine_dw a g) = b_x2 g.
Proof.
  destruct a as [[ay1|] [ax1|] [ay2|] [ax2|]], g as [[gy1|] [gx1|] [gy2|] [gx2|]];
    unfold positive_size, height, width; simpl; intros [Ha1 Ha2] [Hg1 Hg2]; try done.
  assert (0 < (gy2 - gy1) / (ay2 - ay1))%R by (apply Rdiv_lt_0_compat; lra).
  assert (0 < (gx2 - gx1) / (ax2 - ax1))%R by (apply Rdiv_lt_0_compat; lra).
  unfold applied_y2, applied_x2, applied_y1, applied_x1, applied_height, applied_width,
    refine_dy, refine_dx, refine_dh, refine_dw, center_y, center_x, height, width; simpl.
  destruct (Req_dec_T (ay2 - ay1) 0); [exfalso; lra |].
  destruct (Req_dec_T (ax2 - ax1) 0); [exfalso; lra |].
  simpl.
  destruct (Rlt_dec 0 ((gy2 - gy1) / (ay2 - ay1))); [| done].
  destruct (Rlt_dec 0 ((gx2 - gx1) / (ax2 - ax1))); [| done].
  simpl. rewrite !exp_ln by done.
  repeat split; f_equal; field; lra.
Qed.

(** Clamping. *)
Lemma fclamp_idem lo hi x : fclamp lo hi (fclamp lo hi x) = fclamp lo hi x.
Proof.
  destruct lo as [lo|], hi as [hi|], x as [x|]; unfold fclamp; simpl; try done.
  f_equal. float_cases; lra.
Qed.

Lemma fclamp_inside lo hi x :
  fle lo x → fle x hi → fclamp lo hi x = x.
Proof.
  destruct lo as [lo|], hi as [hi|], x as [x|]; unfold fclamp; simpl; try done.
  intros. f_equal. float_cases; lra.
Qed.

Lemma fclamp_bounds lo hi x :
  fle lo hi → is_number x → fle lo (fclamp lo hi x) ∧ fle (fclamp lo hi x) hi.
Proof.
  destruct lo as [lo|], hi as [hi|], x as [x|]; unfold fclamp, is_number; simpl; try done.
  intros. float_cases; lra.
Qed.

Lemma fclamp_lower lo hi x : fle lo hi → is_number x → fle lo (fclamp lo hi x).
Proof. intros. by apply fclamp_bounds. Qed.

Lemma fclamp_upper lo hi x : fle lo hi → is_number x → fle (fclamp lo hi x) hi.
Proof. intros. by apply fclamp_bounds. Qed.

Lemma entry_tab N M F i j :
  i < N → j < M → entry (mkTensor [N; M] (tab (N * M) F)) i j = F (i * M + j).
Proof. intros. unfold entry, elt; simpl. rewrite nth_tab; [done | nia]. Qed.

Lemma pair_index M i j : j < M → (i * M + j) / M = i ∧ (i * M + j) mod M = j.
Proof.
  intros Hj. split.
  - rewrite Nat.add_comm, Nat.div_add by lia. by rewrite Nat.div_small.
  - rewrite Nat.add_comm, Nat.Div0.mod_add. by apply Nat.mod_small.
Qed.

(** ** The clipping functions on handles *)

Lemma clamp_column_of_columns (σ : gmap nat Tensor) l c lo hi N f0 f1 f2 f3 :
  σ !! l = Some (of_columns N f0 f1 f2 f3) → c < 4 →
  clamp_column l c lo hi σ
  = Some (<[l := of_columns N (clamp_if c 0 lo hi f0) (clamp_if c 1 lo hi f1)
                             (clamp_if c 2 lo hi f2) (clamp_if c 3 lo hi f3)]> σ).
Proof.
  intros Hl Hc. unfold clamp_column. rewrite Hl. obind.
  rewrite (narrow_boxes _ N) by (done || apply is_boxes_of_columns). obind.
  columns.
  set (g := λ p : nat, fclamp _ _ _).
  unfold of_columns at 1. rewrite narrow_copy_col by done. obind. subst g.
  do 2 f_equal. unfold of_columns at 2. f_equal.
  apply tab_ext. intros q Hq.
  assert (q / 4 < N) as Hp by (apply Nat.Div0.div_lt_upper_bound; lia).
  pose proof (Nat.mod_upper_bound q 4 ltac:(lia)) as Hm.
  destruct (decide (q mod 4 = c)) as [<- | Hne].
  - rewrite coord_of_columns by done. unfold clamp_if.
    by destruct (q mod 4) as [|[|[|[|?]]]]; try lia; simpl.
  - unfold clamp_if.
    destruct (q mod 4) as [|[|[|[|?]]]]; try lia; simpl;
      destruct c as [|[|[|[|?]]]]; try lia; simpl; done.
Qed.

Lemma ClipToWindow_closed (σ : gmap nat Tensor) window l t N :
  σ !! l = Some t → is_boxes t N →
  ClipToWindow window l σ = Some (l, <[l := clipped t window N]> σ).
Proof.
  intros Hl Hb. rewrite (boxes_columns t N Hb) in Hl.
  unfold ClipToWindow.
  erewrite (clamp_column_of_columns σ) by (done || lia). obind.
  erewrite clamp_column_of_columns by (apply lookup_insert_eq || lia). obind.
  erewrite clamp_column_of_columns by (apply lookup_insert_eq || lia). obind.
  erewrite clamp_column_of_columns by (apply lookup_insert_eq || lia). obind.
  rewrite !insert_insert_eq. reflexivity.
Qed.

Lemma alloc_fresh (σ : gmap nat Tensor) t : σ !! (alloc t σ).1 = None.
Proof. unfold alloc; simpl. apply not_elem_of_dom, is_fresh. Qed.

Lemma ClipBoxes_call_closed (σ : gmap nat Tensor) window l t N :
  σ !! l = Some t → is_boxes t N → N ≠ 1 →
  ClipBoxes_call l window σ = Some (alloc (clipped t window N) σ).
Proof.
  intros Hl Hb HN. unfold ClipBoxes_call. rewrite Hl. obind.
  by rewrite (ClipBoxes_closed t window N).
Qed.

(** Clipping a clipped box set. *)
Lemma clipped_idem t window N : clipped (clipped t window N) window N = clipped t window N.
Proof.
  unfold clipped at 1. apply of_columns_ext. intros p Hp.
  unfold clipped. rewrite !coord_of_columns by (done || lia). simpl.
  unfold clamp_y, clamp_x. by rewrite !fclamp_idem.
Qed.

Lemma clipped_inside t window N :
  is_boxes t N → in_window t window N → clipped t window N = t.
Proof.
  intros Hb Hin. rewrite (boxes_columns t N Hb) at 2. apply of_columns_ext.
  intros p Hp. destruct (Hin p Hp) as (? & ? & ? & ? & ? & ? & ? & ?).
  unfold clamp_y, clamp_x. by rewrite !fclamp_inside.
Qed.

Lemma clipped_in_window t window N :
  (w_y1 window ≤ w_y2 window)%Z → (w_x1 window ≤ w_x2 window)%Z →
  (∀ p c, p < N → c < 4 → is_number (coord t p c)) →
  in_window (clipped t window N) window N.
Proof.
  intros Hy Hx Hnum p Hp. unfold clipped.
  rewrite !coord_of_columns by (done || lia). cbn [nth].
  assert (fle (float_of_Z (w_y1 window)) (float_of_Z (w_y2 window))) by (by apply IZR_le).
  assert (fle (float_of_Z (w_x1 window)) (float_of_Z (w_x2 window))) by (by apply IZR_le).
  unfold clamp_y, clamp_x.
  repeat split; (apply fclamp_lower || apply fclamp_upper);
    (done || apply Hnum; (done || lia)).
Qed.

(** ** The two overlap matrices

    Both functions are reduced to a closed form: the matrix with [N] rows
    and [M] columns whose element at flat index [q] is computed from
    row [q / M] of [boxes1] and row [q mod M] of [boxes2]. *)

Section Overlaps.
Context (b1 b2 : Tensor) (N M : nat).
Context (H1 : is_boxes b1 N) (H2 : is_boxes b2 M).

Lemma BBoxOverlaps_closed :
  BBoxOverlaps b1 b2
  = Some (mkTensor [N; M]
            (tab (N * M) (λ q, overlap_value (box_at b1 (q / M)) (box_at b2 (q mod M))))).
Proof.
  unfold BBoxOverlaps.
  rewrite (size_boxes b2 M), (size_boxes b1 N) by done. obind.
  rewrite (repeat_each b1 N M), (repeat_tile b2 N M) by done. obind.
  rewrite !(chunk_boxes _ (N * M)) by apply is_boxes_tab. obind.
  columns. change (size (col (N * M) _) 0) with (Some (N * M)). obind.
  rewrite zeros_col. columns.
  rewrite view_matrix. do 2 f_equal. apply tab_ext. intros q Hq.
  rewrite !coord_tab by lia.
  assert (∀ c, c < 4 → (q * 4 + c) / 4 = q ∧ (q * 4 + c) mod 4 = c) as Hc.
  { intros c Hc. split.
    - rewrite Nat.add_comm, Nat.div_add by lia. rewrite Nat.div_small by lia. done.
    - rewrite Nat.add_comm, Nat.Div0.mod_add. by apply Nat.mod_small. }
  destruct (Hc 0) as [-> ->]; [lia |].
  destruct (Hc 1) as [-> ->]; [lia |].
  destruct (Hc 2) as [-> ->]; [lia |].
  destruct (Hc 3) as [-> ->]; [lia |].
  reflexivity.
Qed.

Lemma BBoxOverlapsLoops_step i :
  i < M →
  (box2 ← select0 i b2;
   area2_i ← select0 i (col M (λ p, area (box_at b2 p)));
   iou ← ComputeIou box2 b1 area2_i (col N (λ p, area (box_at b1 p)));
   narrow_copy 1 i 1 (loops_state b1 b2 N M i) iou)
  = Some (loops_state b1 b2 N M (S i)).
Proof.
  intros Hi.
  rewrite (select0_boxes b2 M), select0_col by done. obind.
  rewrite box_row_vect, (ComputeIou_row b1 N) by done. obind.
  unfold loops_state. rewrite narrow_copy_col by done.
  do 2 f_equal. apply tab_ext. intros q Hq.
  destruct (decide (q mod M = i)) as [<- | Hne].
  - by rewrite decide_True by lia.
  - destruct (decide (q mod M < i)).
    + by rewrite decide_True by lia.
    + by rewrite decide_False by lia.
Qed.

Lemma BBoxOverlapsLoops_loop count i :
  i + count = M →
  for_range i count
    (λ i overlaps,
       box2 ← select0 i b2;
       area2_i ← select0 i (col M (λ p, area (box_at b2 p)));
       iou ← ComputeIou box2 b1 area2_i (col N (λ p, area (box_at b1 p)));
       narrow_copy 1 i 1 overlaps iou)
    (loops_state b1 b2 N M i)
  = Some (loops_state b1 b2 N M M).
Proof.
  revert i. induction count as [|count IH]; intros i Hi; simpl.
  - by replace i with M by lia.
  - rewrite BBoxOverlapsLoops_step by (done || lia). obind. apply IH. lia.
Qed.

Lemma BBoxOverlapsLoops_closed :
  BBoxOverlapsLoops b1 b2
  = Some (mkTensor [N; M]
            (tab (N * M) (λ q, IoU (box_at b2 (q mod M)) (box_at b1 (q / M))))).
Proof.
  unfold BBoxOverlapsLoops.
  rewrite (box_areas_boxes b1 N), (box_areas_boxes b2 M) by done. obind.
  rewrite (size_boxes b1 N), (size_boxes b2 M) by done. obind.
  change (size (zeros [N; M]) 1) with (Some M). obind.
  assert (zeros [N; M] = loops_state b1 b2 N M 0) as ->.
  { unfold zeros, loops_state. f_equal.
    apply tab_ext_n; [unfold numel; simpl; lia |]. intros q _.
    by rewrite decide_False by lia. }
  rewrite (BBoxOverlapsLoops_loop M 0) by done.
  unfold loops_state. do 2 f_equal. apply tab_ext. intros q Hq.
  rewrite decide_True; [done |]. apply Nat.mod_upper_bound. lia.
Qed.

Lemma BBoxOverlaps_entry :
  ∃ t, BBoxOverlaps b1 b2 = Some t ∧ sizes t = [N; M] ∧ wf t
       ∧ ∀ i j, i < N → j < M →
           entry t i j = overlap_value (box_at b1 i) (box_at b2 j).
Proof.
  eexists. split; [by apply BBoxOverlaps_closed |].
  split; [done |]. split.
  - unfold wf; simpl. rewrite tab_length. unfold numel; simpl. lia.
  - intros i j Hi Hj. rewrite entry_tab by done.
    by destruct (pair_index M i j Hj) as [-> ->].
Qed.

Lemma BBoxOverlapsLoops_entry :
  ∃ t, BBoxOverlapsLoops b1 b2 = Some t ∧ sizes t = [N; M] ∧ wf t
       ∧ ∀ i j, i < N → j < M → entry t i j = IoU (box_at b1 i) (box_at b2 j).
Proof.
  eexists. split; [by apply BBoxOverlapsLoops_closed |].
  split; [done |]. split.
  - unfold wf; simpl. rewrite tab_length. unfold numel; simpl. lia.
  - intros i j Hi Hj. rewrite entry_tab by done.
    destruct (pair_index M i j Hj) as [-> ->]. apply IoU_comm.
Qed.

End Overlaps.

Lemma is_boxes_box_set rows : is_boxes (box_set rows) (length rows).
Proof.
  split; [done |]. unfold box_set; simpl.
  induction rows as [|a rows IH]; [done |]. simpl. rewrite IH. lia.
Qed.

(** ** The overlap functions *)

(** The example of the specification: for A = (0,0,10,10) and
    B = (5,5,15,15) the intersection is 25, the union 175, and both
    functions return 25/175 = 1/7. *)
Example overlap_of_shifted_squares :
  BBoxOverlaps (box_set [box 0 0 10 10]) (box_set [box 5 5 15 15])
  = Some (mkTensor [1; 1] [Fin (1 / 7)])
  ∧ BBoxOverlapsLoops (box_set [box 0 0 10 10]) (box_set [box 5 5 15 15])
    = Some (mkTensor [1; 1] [Fin (1 / 7)]).
Proof.
  rewrite (BBoxOverlaps_closed _ _ 1 1), (BBoxOverlapsLoops_closed _ _ 1 1)
    by apply is_boxes_box_set.
  split; float_eval.
Qed.

(** C1: with boxes1 = [(0,0,10,10)] and boxes2 = [(0,5,10,20)] the value
    returned by BBoxOverlaps is 1/3, because the area term of the second box
    is (y2-x1)*(x2-y1) = 100, while intersection / (area_a + area_b -
    intersection) with the rectangle areas 100 and 150 is 1/4. *)
Theorem BBoxOverlaps_area_term_swaps_columns :
  BBoxOverlaps (box_set [box 0 0 10 10]) (box_set [box 0 5 10 20])
  = Some (mkTensor [1; 1] [Fin (1 / 3)])
  ∧ IoU (box 0 0 10 10) (box 0 5 10 20) = Fin (1 / 4)
  ∧ chunk_area (box 0 5 10 20) = Fin 100
  ∧ area (box 0 5 10 20) = Fin 150.
Proof.
  rewrite (BBoxOverlaps_closed _ _ 1 1) by apply is_boxes_box_set.
  repeat split; float_eval.
Qed.

(** C5: the box (0,5,10,20) is non-degenerate, and the diagonal entry that
    BBoxOverlaps computes for it is 3, not 1; BBoxOverlapsLoops gives 1. *)
Theorem BBoxOverlaps_self_overlap_is_not_one :
  flt (b_y1 (box 0 5 10 20)) (b_y2 (box 0 5 10 20))
  ∧ flt (b_x1 (box 0 5 10 20)) (b_x2 (box 0 5 10 20))
  ∧ BBoxOverlaps (box_set [box 0 5 10 20]) (box_set [box 0 5 10 20])
    = Some (mkTensor [1; 1] [Fin 3])
  ∧ BBoxOverlapsLoops (box_set [box 0 5 10 20]) (box_set [box 0 5 10 20])
    = Some (mkTensor [1; 1] [Fin 1]).
Proof.
  rewrite (BBoxOverlaps_closed _ _ 1 1), (BBoxOverlapsLoops_closed _ _ 1 1)
    by apply is_boxes_box_set.
  repeat split; float_eval.
Qed.

(** The diagonal of BBoxOverlapsLoops: the overlap of a non-degenerate box
    with itself is exactly 1. *)
Theorem BBoxOverlapsLoops_diagonal S N i :
  is_boxes S N → i < N →
  flt (b_y1 (box_at S i)) (b_y2 (box_at S i)) →
  flt (b_x1 (box_at S i)) (b_x2 (box_at S i)) →
  ∃ t, BBoxOverlapsLoops S S = Some t ∧ entry t i i = Fin 1.
Proof.
  intros HS Hi Hy Hx.
  destruct (BBoxOverlapsLoops_entry S S N N HS HS) as (t & Ht & _ & _ & He).
  exists t. split; [done |]. rewrite He by done. by apply IoU_self.
Qed.

(** C2 (as stated, refuted): for one box in boxes1 and two boxes in boxes2
    the result of BBoxOverlaps does not have the shape [M, N] = [2, 1]. *)
Lemma BBoxOverlaps_shape_is_not_M_by_N :
  ¬ ∃ t, BBoxOverlaps (box_set [box 0 0 10 10])
                      (box_set [box 0 0 10 10; box 5 5 15 15]) = Some t
         ∧ sizes t = [2; 1].
Proof.
  intros (t & Ht & Hs).
  rewrite (BBoxOverlaps_closed _ _ 1 2) in Ht by apply is_boxes_box_set.
  injection Ht as <-. discriminate Hs.
Qed.

(** C2 (amended): for N boxes in boxes1 and M boxes in boxes2, BBoxOverlaps
    returns a matrix of shape [N, M] whose rows are indexed by boxes1 and
    columns by boxes2: entry (i, j) is the value computed for the pair
    boxes1[i], boxes2[j], which is their IoU whenever the area terms the
    function uses for the two boxes are their rectangle areas. *)
Theorem BBoxOverlaps_shape_and_entries b1 b2 N M :
  is_boxes b1 N → is_boxes b2 M →
  ∃ t, BBoxOverlaps b1 b2 = Some t
       ∧ sizes t = [N; M]
       ∧ length (data t) = N * M
       ∧ ∀ i j, i < N → j < M →
           entry t i j = overlap_value (box_at b1 i) (box_at b2 j)
           ∧ (chunk_area (box_at b1 i) = area (box_at b1 i) →
              chunk_area (box_at b2 j) = area (box_at b2 j) →
              entry t i j = IoU (box_at b1 i) (box_at b2 j)).
Proof.
  intros H1 H2.
  destruct (BBoxOverlaps_entry b1 b2 N M H1 H2) as (t & Ht & Hs & Hw & He).
  exists t. split; [done |]. split; [done |]. split.
  - unfold wf in Hw. rewrite Hw, Hs. unfold numel; simpl. lia.
  - intros i j Hi Hj. split; [by apply He |].
    intros Ha Hb. rewrite He by done. unfold overlap_value, IoU. by rewrite Ha, Hb.
Qed.

(** One box against two: the shape is [1, 2]. *)
Lemma BBoxOverlaps_shape_and_entries_witness :
  ∃ t, BBoxOverlaps (box_set [box 0 0 10 10]) (box_set [box 0 0 10 10; box 5 5 15 15]) = Some t
       ∧ sizes t = [1; 2]
       ∧ length (data t) = 1 * 2
       ∧ ∀ i j, i < 1 → j < 2 →
           entry t i j
           = overlap_value (box_at (box_set [box 0 0 10 10]) i)
                           (box_at (box_set [box 0 0 10 10; box 5 5 15 15]) j)
           ∧ (chunk_area (box_at (box_set [box 0 0 10 10]) i)
              = area (box_at (box_set [box 0 0 10 10]) i) →
              chunk_area (box_at (box_set [box 0 0 10 10; box 5 5 15 15]) j)
              = area (box_at (box_set [box 0 0 10 10; box 5 5 15 15]) j) →
              entry t i j
              = IoU (box_at (box_set [box 0 0 10 10]) i)
                    (box_at (box_set [box 0 0 10 10; box 5 5 15 15]) j)).
Proof.
  apply (BBoxOverlaps_shape_and_entries
           (box_set [box 0 0 10 10]) (box_set [box 0 0 10 10; box 5 5 15 15]) 1 2);
    split; reflexivity.
Defined.

(** C3 (as stated, refuted): with boxes1 = [(0,0,10,10); (5,5,15,15)] and
    boxes2 = [(0,0,10,10); (20,20,30,30)], entry (0,1) of BBoxOverlapsLoops
    is 0 and entry (1,0) of BBoxOverlaps is 1/7. *)
Lemma BBoxOverlapsLoops_is_not_the_transpose :
  ∃ tl to,
    BBoxOverlapsLoops (box_set [box 0 0 10 10; box 5 5 15 15])
                      (box_set [box 0 0 10 10; box 20 20 30 30]) = Some tl
    ∧ BBoxOverlaps (box_set [box 0 0 10 10; box 5 5 15 15])
                   (box_set [box 0 0 10 10; box 20 20 30 30]) = Some to
    ∧ entry tl 0 1 = Fin 0
    ∧ entry to 1 0 = Fin (1 / 7)
    ∧ entry tl 0 1 ≠ entry to 1 0.
Proof.
  do 2 eexists.
  split; [apply (BBoxOverlapsLoops_closed _ _ 2 2); apply is_boxes_box_set |].
  split; [apply (BBoxOverlaps_closed _ _ 2 2); apply is_boxes_box_set |].
  assert (∀ a b : float, a = Fin 0 → b = Fin (1 / 7) → a = Fin 0 ∧ b = Fin (1 / 7) ∧ a ≠ b) as H.
  { intros a b -> ->. repeat split. intros [=]. lra. }
  apply H; float_eval.
Qed.

(** C3 (amended): for N boxes in boxes1 and M boxes in boxes2, both functions
    return an N x M matrix with rows indexed by boxes1 and columns by boxes2,
    with no transposition between them: entry (i, j) of BBoxOverlapsLoops is
    the IoU of boxes1[i] and boxes2[j], and it equals entry (i, j) of
    BBoxOverlaps whenever the area terms that BBoxOverlaps uses for the two
    boxes are their rectangle areas. *)
Theorem overlap_functions_share_orientation b1 b2 N M :
  is_boxes b1 N → is_boxes b2 M →
  ∃ tl to,
    BBoxOverlapsLoops b1 b2 = Some tl
    ∧ BBoxOverlaps b1 b2 = Some to
    ∧ sizes tl = [N; M] ∧ sizes to = [N; M]
    ∧ ∀ i j, i < N → j < M →
        entry tl i j = IoU (box_at b1 i) (box_at b2 j)
        ∧ (chunk_area (box_at b1 i) = area (box_at b1 i) →
           chunk_area (box_at b2 j) = area (box_at b2 j) →
           entry tl i j = entry to i j).
Proof.
  intros H1 H2.
  destruct (BBoxOverlapsLoops_entry b1 b2 N M H1 H2) as (tl & Hl & Hsl & _ & Hel).
  destruct (BBoxOverlaps_entry b1 b2 N M H1 H2) as (to & Ho & Hso & _ & Heo).
  exists tl, to. repeat split; try done.
  - by apply Hel.
  - intros Ha Hb. rewrite Hel, Heo by done.
    unfold IoU, overlap_value. by rewrite Ha, Hb.
Qed.

(** Two boxes against two. *)
Lemma overlap_functions_share_orientation_witness :
  ∃ tl to,
    BBoxOverlapsLoops (box_set [box 0 0 10 10; box 5 5 15 15])
                      (box_set [box 0 0 10 10; box 20 20 30 30]) = Some tl
    ∧ BBoxOverlaps (box_set [box 0 0 10 10; box 5 5 15 15])
                   (box_set [box 0 0 10 10; box 20 20 30 30]) = Some to
    ∧ sizes tl = [2; 2] ∧ sizes to = [2; 2]
    ∧ ∀ i j, i < 2 → j < 2 →
        entry tl i j = IoU (box_at (box_set [box 0 0 10 10; box 5 5 15 15]) i)
                           (box_at (box_set [box 0 0 10 10; box 20 20 30 30]) j)
        ∧ (chunk_area (box_at (box_set [box 0 0 10 10; box 5 5 15 15]) i)
           = area (box_at (box_set [box 0 0 10 10; box 5 5 15 15]) i) →
           chunk_area (box_at (box_set [box 0 0 10 10; box 20 20 30 30]) j)
           = area (box_at (box_set [box 0 0 10 10; box 20 20 30 30]) j) →
           entry tl i j = entry to i j).
Proof.
  apply (overlap_functions_share_orientation
           (box_set [box 0 0 10 10; box 5 5 15 15])
           (box_set [box 0 0 10 10; box 20 20 30 30]) 2 2);
    split; reflexivity.
Defined.

(** ** Refinement followed by application *)

(** The round trip on box sets that do not consist of a single row: applying
    the deltas of [BoxRefinement A B] to [A] gives [B]. *)
Theorem BoxRefinement_ApplyBoxDeltas_round_trip A B N :
  is_boxes A N → is_boxes B N → N ≠ 1 →
  (∀ p, p < N → positive_size (box_at A p) ∧ positive_size (box_at B p)) →
  ∃ d, BoxRefinement A B = Some d ∧ ApplyBoxDeltas A d = Some B.
Proof.
  intros HA HB HN Hpos. eexists. split; [by apply BoxRefinement_closed |].
  rewrite (ApplyBoxDeltas_closed _ _ N) by (done || apply is_boxes_of_columns).
  f_equal. etransitivity; [| symmetry; apply (boxes_columns B N HB)].
  apply of_columns_ext.
  intros p Hp. rewrite !coord_of_columns by (done || lia). cbn [nth].
  destruct (Hpos p Hp) as [Ha Hb]. by apply refine_apply.
Qed.

(** C4: for the single-row box sets A = [(0,0,1,1)] and B = [(0,0,2,2)],
    whose heights and widths are positive, BoxRefinement returns the deltas
    and ApplyBoxDeltas rejects them: the unqualified squeeze turns each
    one-element column into a 0-dimensional tensor, which cannot be stacked
    along dimension 1. *)
Theorem ApplyBoxDeltas_rejects_single_row :
  positive_size (box 0 0 1 1) ∧ positive_size (box 0 0 2 2)
  ∧ ∃ d, BoxRefinement (box_set [box 0 0 1 1]) (box_set [box 0 0 2 2]) = Some d
         ∧ is_boxes d 1
         ∧ ApplyBoxDeltas (box_set [box 0 0 1 1]) d = None.
Proof.
  split; [split; eval_rows; lra |]. split; [split; eval_rows; lra |].
  eexists. split; [apply (BoxRefinement_closed _ _ 1); apply is_boxes_box_set |].
  split; [apply is_boxes_of_columns |].
  apply ApplyBoxDeltas_single; [apply is_boxes_box_set | apply is_boxes_of_columns].
Qed.

(** ** Disjoint boxes *)

Lemma IoU_disjoint a b :
  disjoint a b → nonzero (fadd (area a) (area b)) → IoU a b = Fin 0.
Proof. disjoint_zero a b. Qed.

Lemma overlap_value_disjoint a b :
  disjoint a b → nonzero (fadd (chunk_area a) (chunk_area b)) → overlap_value a b = Fin 0.
Proof. disjoint_zero a b. Qed.

(** C6 (as stated, refuted): the boxes (0,0,0,0) and (1,1,1,1) are disjoint,
    their union is 0, and the entry of BBoxOverlapsLoops is NaN (0/0), not 0. *)
Lemma disjoint_overlap_can_be_NaN :
  disjoint (box 0 0 0 0) (box 1 1 1 1)
  ∧ ∃ t, BBoxOverlapsLoops (box_set [box 0 0 0 0]) (box_set [box 1 1 1 1]) = Some t
         ∧ entry t 0 0 = NaN
         ∧ entry t 0 0 ≠ Fin 0.
Proof.
  split; [left; eval_rows; float_cases; lra |].
  eexists. split; [apply (BBoxOverlapsLoops_closed _ _ 1 1); apply is_boxes_box_set |].
  assert (∀ a : float, a = NaN → a = NaN ∧ a ≠ Fin 0) as H by (by intros a ->).
  apply H. eval_rows. float_cases. reflexivity.
Qed.

(** C6 (amended): for every pair of disjoint boxes (whose intersection
    rectangle has non-positive width or height) whose union term is a number
    other than zero, the computed IoU is exactly 0: in BBoxOverlapsLoops
    when area_a + area_b is such a number, in BBoxOverlaps when the sum of
    the two area terms it computes is. *)
Theorem disjoint_boxes_overlap_zero b1 b2 N M i j :
  is_boxes b1 N → is_boxes b2 M → i < N → j < M →
  disjoint (box_at b1 i) (box_at b2 j) →
  ∃ tl to,
    BBoxOverlapsLoops b1 b2 = Some tl
    ∧ BBoxOverlaps b1 b2 = Some to
    ∧ (nonzero (fadd (area (box_at b1 i)) (area (box_at b2 j))) → entry tl i j = Fin 0)
    ∧ (nonzero (fadd (chunk_area (box_at b1 i)) (chunk_area (box_at b2 j))) →
       entry to i j = Fin 0).
Proof.
  intros H1 H2 Hi Hj Hd.
  destruct (BBoxOverlapsLoops_entry b1 b2 N M H1 H2) as (tl & Hl & _ & _ & Hel).
  destruct (BBoxOverlaps_entry b1 b2 N M H1 H2) as (to & Ho & _ & _ & Heo).
  exists tl, to. repeat split; try done.
  - intros Hu. rewrite Hel by done. by apply IoU_disjoint.
  - intros Hu. rewrite Heo by done. by apply overlap_value_disjoint.
Qed.

(** The example A = (0,0,1,1), B = (2,2,3,3): both functions give 0. *)
Lemma disjoint_boxes_overlap_zero_witness :
  ∃ tl to,
    BBoxOverlapsLoops (box_set [box 0 0 1 1]) (box_set [box 2 2 3 3]) = Some tl
    ∧ BBoxOverlaps (box_set [box 0 0 1 1]) (box_set [box 2 2 3 3]) = Some to
    ∧ entry tl 0 0 = Fin 0
    ∧ entry to 0 0 = Fin 0.
Proof.
  destruct (disjoint_boxes_overlap_zero
              (box_set [box 0 0 1 1]) (box_set [box 2 2 3 3]) 1 1 0 0)
    as (tl & to & Hl & Ho & Hel & Heo).
  - split; reflexivity.
  - split; reflexivity.
  - lia.
  - lia.
  - left. eval_rows. float_cases. lra.
  - exists tl, to. split; [exact Hl |]. split; [exact Ho |]. split.
    + apply Hel. exists 2%R. split; [| lra]. eval_rows. f_equal. lra.
    + apply Heo. exists 2%R. split; [| lra]. eval_rows. f_equal. lra.
Defined.

(** ** Clipping *)

(** Clipping with [ClipBoxes] box sets that do not consist of a single row:
    a box set inside the window is returned unchanged, and a second clipping
    changes nothing. *)
Theorem ClipBoxes_inside t window N :
  is_boxes t N → N ≠ 1 → in_window t window N → ClipBoxes t window = Some t.
Proof.
  intros Hb HN Hin. rewrite (ClipBoxes_closed t window N) by done.
  by rewrite clipped_inside.
Qed.

Theorem ClipBoxes_idempotent t window N :
  is_boxes t N → N ≠ 1 →
  ∃ r, ClipBoxes t window = Some r ∧ ClipBoxes r window = Some r.
Proof.
  intros Hb HN. exists (clipped t window N).
  split; [by apply ClipBoxes_closed |].
  rewrite (ClipBoxes_closed _ window N) by (done || apply is_boxes_of_columns).
  by rewrite clipped_idem.
Qed.

(** The same for [ClipToWindow], for every number of rows. *)
Theorem ClipToWindow_inside (σ : gmap nat Tensor) window l t N :
  σ !! l = Some t → is_boxes t N → in_window t window N →
  ClipToWindow window l σ = Some (l, σ).
Proof.
  intros Hl Hb Hin. rewrite (ClipToWindow_closed σ window l t N) by done.
  rewrite clipped_inside by done. by rewrite insert_id.
Qed.

Theorem ClipToWindow_idempotent (σ : gmap nat Tensor) window l t N :
  σ !! l = Some t → is_boxes t N →
  ∃ σ', ClipToWindow window l σ = Some (l, σ')
        ∧ ClipToWindow window l σ' = Some (l, σ').
Proof.
  intros Hl Hb. eexists. split; [by apply (ClipToWindow_closed σ window l t N) |].
  rewrite (ClipToWindow_closed _ window l (clipped t window N) N)
    by (apply lookup_insert_eq || apply is_boxes_of_columns).
  by rewrite clipped_idem, insert_insert_eq.
Qed.

(** C7: the single-row box set [(1,1,2,2)] lies inside the window
    (0,0,10,10); ClipBoxes does not return it unchanged but rejects it (the
    unqualified squeeze makes the four columns 0-dimensional), while
    ClipToWindow leaves it unchanged. *)
Theorem ClipBoxes_rejects_single_row_inside_window :
  in_window (box_set [box 1 1 2 2]) (mkWindow 0 0 10 10) 1
  ∧ ClipBoxes (box_set [box 1 1 2 2]) (mkWindow 0 0 10 10) = None
  ∧ ClipToWindow (mkWindow 0 0 10 10) 0 {[0 := box_set [box 1 1 2 2]]}
    = Some (0, {[0 := box_set [box 1 1 2 2]]}).
Proof.
  assert (in_window (box_set [box 1 1 2 2]) (mkWindow 0 0 10 10) 1) as Hin.
  { intros p Hp. replace p with 0 by lia. eval_rows. lra. }
  split; [done |]. split.
  - apply ClipBoxes_single, (is_boxes_box_set [_]).
  - apply (ClipToWindow_inside _ _ _ (box_set [box 1 1 2 2]) 1);
      [apply lookup_singleton_eq | apply (is_boxes_box_set [_]) | done].
Qed.

(** The mutation contract on box sets that do not consist of a single row:
    [ClipBoxes] returns a fresh handle to the clamped values and changes no
    tensor of the store; [ClipToWindow] returns the handle it was given,
    whose tensor now holds the same clamped values, and changes no other
    tensor. *)
Theorem clipping_mutation_contract (σ : gmap nat Tensor) window l t N :
  σ !! l = Some t → is_boxes t N → N ≠ 1 →
  ∃ l1 σ1 σ2 r,
    ClipBoxes_call l window σ = Some (l1, σ1)
    ∧ ClipToWindow window l σ = Some (l, σ2)
    ∧ σ !! l1 = None
    ∧ (∀ k, k ≠ l1 → σ1 !! k = σ !! k)
    ∧ σ1 !! l = Some t
    ∧ σ1 !! l1 = Some r
    ∧ σ2 !! l = Some r
    ∧ (∀ k, k ≠ l → σ2 !! k = σ !! k).
Proof.
  intros Hl Hb HN.
  exists (alloc (clipped t window N) σ).1, (alloc (clipped t window N) σ).2,
    (<[l := clipped t window N]> σ), (clipped t window N).
  pose proof (alloc_fresh σ (clipped t window N)) as Hfresh.
  split; [rewrite (ClipBoxes_call_closed σ window l t N) by done; by destruct (alloc _ _) |].
  split; [by apply (ClipToWindow_closed σ window l t N) |].
  split; [done |]. unfold alloc in *; simpl in *.
  split; [intros k Hk; by rewrite lookup_insert_ne |].
  split; [rewrite lookup_insert_ne; [done | congruence] |].
  split; [apply lookup_insert_eq |].
  split; [apply lookup_insert_eq |].
  intros k Hk. by rewrite lookup_insert_ne.
Qed.

(** C8: for the single box (-5,-5,15,15) held at handle 0 and the window
    (0,0,10,10), ClipToWindow writes (0,0,10,10) into the caller's tensor
    and returns handle 0, while ClipBoxes returns no array at all: the two
    variants do not compute identical values for this input. *)
Theorem ClipBoxes_call_rejects_single_row :
  ClipBoxes_call 0 (mkWindow 0 0 10 10) {[0 := box_set [box (-5) (-5) 15 15]]} = None
  ∧ ClipToWindow (mkWindow 0 0 10 10) 0 {[0 := box_set [box (-5) (-5) 15 15]]}
    = Some (0, {[0 := box_set [box 0 0 10 10]]}).
Proof.
  split.
  - unfold ClipBoxes_call. rewrite lookup_singleton_eq. obind.
    by rewrite ClipBoxes_single by apply (is_boxes_box_set [_]).
  - rewrite (ClipToWindow_closed _ _ _ (box_set [box (-5) (-5) 15 15]) 1)
      by (apply lookup_singleton_eq || apply (is_boxes_box_set [_])).
    rewrite insert_singleton_eq. do 3 f_equal. float_eval.
Qed.

(** C9 (as stated, refuted): a coordinate that is NaN stays NaN under
    clamping, so the result of ClipBoxes on [(NaN,0,1,1); (0,0,1,1)] with the
    window (0,0,10,10) has a coordinate outside the window. *)
Lemma clipping_keeps_NaN :
  ∃ r, ClipBoxes (box_set [mkBox NaN (Fin 0) (Fin 1) (Fin 1); box 0 0 1 1])
                 (mkWindow 0 0 10 10) = Some r
       ∧ coord r 0 0 = NaN
       ∧ ¬ in_window r (mkWindow 0 0 10 10) 2.
Proof.
  eexists. split; [apply (ClipBoxes_closed _ _ 2); [apply (is_boxes_box_set [_; _]) | lia] |].
  split; [reflexivity |].
  intros Hin. destruct (Hin 0) as [H _]; [lia |]. exact H.
Qed.

(** C9 (amended): for every window with window.y1 <= window.y2 and
    window.x1 <= window.x2 and every box set whose coordinates are numbers
    (none is NaN), every coordinate of the result of either clipping variant
    lies inside the window. *)
Theorem clipped_coordinates_lie_in_window (σ : gmap nat Tensor) l t window N :
  σ !! l = Some t → is_boxes t N →
  (w_y1 window ≤ w_y2 window)%Z → (w_x1 window ≤ w_x2 window)%Z →
  (∀ p c, p < N → c < 4 → is_number (coord t p c)) →
  (∀ r, ClipBoxes t window = Some r → in_window r window N)
  ∧ (N ≠ 1 → ∃ r, ClipBoxes t window = Some r ∧ in_window r window N)
  ∧ (∃ σ' r, ClipToWindow window l σ = Some (l, σ') ∧ σ' !! l = Some r
             ∧ in_window r window N).
Proof.
  intros Hl Hb Hy Hx Hnum.
  pose proof (clipped_in_window t window N Hy Hx Hnum) as Hin.
  split; [| split].
  - intros r Hr. destruct (decide (N = 1)) as [-> | HN].
    + by rewrite ClipBoxes_single in Hr.
    + rewrite (ClipBoxes_closed t window N) in Hr by done. by injection Hr as <-.
  - intros HN. exists (clipped t window N). split; [by apply ClipBoxes_closed | done].
  - exists (<[l := clipped t window N]> σ), (clipped t window N).
    split; [by apply (ClipToWindow_closed σ window l t N) |].
    split; [apply lookup_insert_eq | done].
Qed.

(** The box (-5,-5,15,15) and a box inside the window (0,0,10,10). *)
Lemma clipped_coordinates_lie_in_window_witness :
  (∀ r, ClipBoxes (box_set [box (-5) (-5) 15 15; box 1 1 2 2]) (mkWindow 0 0 10 10) = Some r →
        in_window r (mkWindow 0 0 10 10) 2)
  ∧ (2 ≠ 1 → ∃ r, ClipBoxes (box_set [box (-5) (-5) 15 15; box 1 1 2 2])
                             (mkWindow 0 0 10 10) = Some r
                  ∧ in_window r (mkWindow 0 0 10 10) 2)
  ∧ (∃ σ' r, ClipToWindow (mkWindow 0 0 10 10) 0
               {[0 := box_set [box (-5) (-5) 15 15; box 1 1 2 2]]} = Some (0, σ')
             ∧ σ' !! 0 = Some r
             ∧ in_window r (mkWindow 0 0 10 10) 2).
Proof.
  apply (clipped_coordinates_lie_in_window
           {[0 := box_set [box (-5) (-5) 15 15; box 1 1 2 2]]} 0
           (box_set [box (-5) (-5) 15 15; box 1 1 2 2]) (mkWindow 0 0 10 10) 2).
  - reflexivity.
  - split; reflexivity.
  - simpl. lia.
  - simpl. lia.
  - intros p c Hp Hc.
    destruct p as [|[|p]]; [| | lia];
      destruct c as [|[|[|[|c]]]]; try lia; discriminate.
Defined.

(** C10: for box sets of N >= 2 rows, ApplyBoxDeltas and ClipBoxes return an
    N x 4 tensor; for a single row both reject the input, because squeeze
    then removes both dimensions of each column. *)
Theorem shape_preserved_from_two_rows boxes deltas window N :
  is_boxes boxes N → is_boxes deltas N →
  (2 ≤ N →
   (∃ t, ApplyBoxDeltas boxes deltas = Some t ∧ is_boxes t N)
   ∧ (∃ t, ClipBoxes boxes window = Some t ∧ is_boxes t N))
  ∧ (N = 1 → ApplyBoxDeltas boxes deltas = None ∧ ClipBoxes boxes window = None).
Proof.
  intros Hb Hd. split.
  - intros HN. split; eexists; (split; [| apply is_boxes_of_columns]).
    + apply ApplyBoxDeltas_closed; (done || lia).
    + apply ClipBoxes_closed; (done || lia).
  - intros ->. split; [by apply ApplyBoxDeltas_single | by apply ClipBoxes_single].
Qed.

(** Two rows. *)
Lemma shape_preserved_from_two_rows_witness :
  (∃ t, ApplyBoxDeltas (box_set [box 0 0 1 1; box 1 1 2 2])
                       (box_set [box 0 0 0 0; box 1 1 0 0]) = Some t ∧ is_boxes t 2)
  ∧ (∃ t, ClipBoxes (box_set [box 0 0 1 1; box 1 1 2 2]) (mkWindow 0 0 10 10) = Some t
          ∧ is_boxes t 2).
Proof.
  refine (proj1 (shape_preserved_from_two_rows
                   (box_set [box 0 0 1 1; box 1 1 2 2])
                   (box_set [box 0 0 0 0; box 1 1 0 0]) (mkWindow 0 0 10 10) 2 _ _) _).
  - split; reflexivity.
  - split; reflexivity.
  - lia.
Defined.

(** An empty box set keeps its shape as well. *)
Lemma shape_preserved_without_rows boxes deltas window :
  is_boxes boxes 0 → is_boxes deltas 0 →
  (∃ t, ApplyBoxDeltas boxes deltas = Some t ∧ is_boxes t 0)
  ∧ (∃ t, ClipBoxes boxes window = Some t ∧ is_boxes t 0).
Proof.
  intros Hb Hd. split; eexists; (split; [| apply is_boxes_of_columns]).
  - by apply ApplyBoxDeltas_closed.
  - by apply ClipBoxes_closed.
Qed.

(** ** Further facts about one pair of boxes *)

Lemma fmul_comm a b : fmul a b = fmul b a.
Proof. destruct a, b; simpl; try done. f_equal. apply Rmult_comm. Qed.

Lemma overlap_value_comm a b : overlap_value a b = overlap_value b a.
Proof.
  unfold overlap_value.
  by rewrite (intersection_area_comm a b), (fadd_comm (chunk_area a)).
Qed.

Lemma chunk_area_aligned a : aligned a → chunk_area a = area a.
Proof.
  unfold chunk_area, area. intros [H | H].
  - by rewrite H.
  - rewrite H. apply fmul_comm.
Qed.

Lemma quotient_in_unit_interval i u :
  (0 <= i)%R → (i <= u)%R → (0 < u)%R → (0 <= i / u <= 1)%R.
Proof.
  intros Hi Hiu Hu. unfold Rdiv.
  pose proof (Rinv_0_lt_compat u Hu) as Hinv.
  assert (u * / u = 1)%R as Hone by (apply Rinv_r; lra).
  split; nra.
Qed.

Lemma clamped_extent_bounds lo1 hi1 lo2 hi2 :
  (lo1 <= hi1)%R → (lo2 <= hi2)%R →
  (0 <= Rmax (Rmin hi1 hi2 - Rmax lo1 lo2) 0)%R
  ∧ (Rmax (Rmin hi1 hi2 - Rmax lo1 lo2) 0 <= hi1 - lo1)%R
  ∧ (Rmax (Rmin hi1 hi2 - Rmax lo1 lo2) 0 <= hi2 - lo2)%R.
Proof. intros. float_cases; lra. Qed.

Lemma IoU_range a b :
  well_formed a → well_formed b →
  flt (Fin 0) (area a) ∨ flt (Fin 0) (area b) →
  fle (Fin 0) (IoU a b) ∧ fle (IoU a b) (Fin 1).
Proof.
  destruct a as [[ay1|] [ax1|] [ay2|] [ax2|]], b as [[by1|] [bx1|] [by2|] [bx2|]];
    unfold well_formed; simpl; intros [Hay Hax] [Hby Hbx] Hpos; try done.
  destruct (clamped_extent_bounds ax1 ax2 bx1 bx2 Hax Hbx) as (Hw0 & Hwa & Hwb).
  destruct (clamped_extent_bounds ay1 ay2 by1 by2 Hay Hby) as (Hh0 & Hha & Hhb).
  unfold IoU, intersection_area, area; simpl.
  set (w := Rmax (Rmin ax2 bx2 - Rmax ax1 bx1) 0) in *.
  set (h := Rmax (Rmin ay2 by2 - Rmax ay1 by1) 0) in *.
  assert (0 <= w * h)%R by nra.
  assert (w * h <= (ay2 - ay1) * (ax2 - ax1))%R by nra.
  assert (w * h <= (by2 - by1) * (bx2 - bx1))%R by nra.
  assert (0 < (ay2 - ay1) * (ax2 - ax1) + (by2 - by1) * (bx2 - bx1) - w * h)%R
    by (unfold area in Hpos; simpl in Hpos; destruct Hpos; nra).
  destruct (Req_dec_T _ 0); [exfalso; lra |]. simpl.
  apply quotient_in_unit_interval; lra.
Qed.



(** *** Refinement and application on one row *)

Lemma refine_self a :
  positive_size a →
  refine_dy a a = Fin 0 ∧ refine_dx a a = Fin 0
  ∧ refine_dh a a = Fin 0 ∧ refine_dw a a = Fin 0.
Proof.
  destruct a as [[y1|] [x1|] [y2|] [x2|]];
    unfold positive_size, height, width; simpl; intros [Hh Hw]; try done.
  unfold refine_dy, refine_dx, refine_dh, refine_dw, center_y, center_x, height, width; simpl.
  destruct (Req_dec_T (y2 - y1) 0); [exfalso; lra |].
  destruct (Req_dec_T (x2 - x1) 0); [exfalso; lra |]. simpl.
  rewrite !Rdiv_diag by done.
  destruct (Rlt_dec 0 1); [| exfalso; lra]. rewrite ln_1.
  repeat split; f_equal; unfold Rdiv; ring.
Qed.



Lemma apply_refine a dy dx dh dw :
  positive_size a → is_number dy → is_number dx → is_number dh → is_number dw →
  let g := mkBox (applied_y1 a dy dh) (applied_x1 a dx dw)
                 (applied_y2 a dy dh) (applied_x2 a dx dw) in
  refine_dy a g = dy ∧ refine_dx a g = dx ∧ refine_dh a g = dh ∧ refine_dw a g = dw.
Proof.
  destruct a as [[y1|] [x1|] [y2|] [x2|]], dy as [dy|], dx as [dx|], dh as [dh|], dw as [dw|];
    unfold positive_size, is_number, height, width; simpl; intros [Hh Hw] ? ? ? ?; try done.
  pose proof (exp_pos dh). pose proof (exp_pos dw).
  unfold refine_dy, refine_dx, refine_dh, refine_dw,
    applied_y2, applied_x2, applied_y1, applied_x1, applied_height, applied_width,
    center_y, center_x, height, width; simpl.
  destruct (Req_dec_T (y2 - y1) 0); [exfalso; lra |].
  destruct (Req_dec_T (x2 - x1) 0); [exfalso; lra |]. simpl.
  assert (∀ c s d e : R, s ≠ 0%R → (c + d * s - 1 / 2 * (s * e) + s * e
                                   - (c + d * s - 1 / 2 * (s * e))) / s = e)%R as Hratio
    by (intros; field; done).
  rewrite !Hratio by done.
  destruct (Rlt_dec 0 (exp dh)); [| done]. destruct (Rlt_dec 0 (exp dw)); [| done].
  rewrite !ln_exp. repeat split; f_equal; field; done.
Qed.

Lemma refine_zero_height a g :
  height a = Fin 0 → refine_dy a g = NaN ∧ refine_dh a g = NaN.
Proof.
  intros Hh. unfold refine_dy, refine_dh. rewrite Hh.
  assert (∀ x, fdiv x (Fin 0) = NaN) as Hdiv.
  { intros [x|]; simpl; [| done]. by destruct (Req_dec_T 0 0). }
  by rewrite !Hdiv.
Qed.

Lemma refine_zero_width a g :
  width a = Fin 0 → refine_dx a g = NaN ∧ refine_dw a g = NaN.
Proof.
  intros Hh. unfold refine_dx, refine_dw. rewrite Hh.
  assert (∀ x, fdiv x (Fin 0) = NaN) as Hdiv.
  { intros [x|]; simpl; [| done]. by destruct (Req_dec_T 0 0). }
  by rewrite !Hdiv.
Qed.

(** Clamping keeps the order of two coordinates. *)
Lemma fclamp_monotone lo hi x y :
  fle lo hi → fle x y → fle (fclamp lo hi x) (fclamp lo hi y).
Proof.
  destruct lo as [lo|], hi as [hi|], x as [x|], y as [y|]; unfold fclamp; simpl; try done.
  intros. float_cases; lra.
Qed.

(** ** Further properties of the overlap functions *)

(** Exchanging the two box sets transposes the matrix, for both functions. *)
Theorem overlap_matrices_transpose_on_swap b1 b2 N M :
  is_boxes b1 N → is_boxes b2 M →
  ∃ tl tl' to to',
    BBoxOverlapsLoops b1 b2 = Some tl ∧ BBoxOverlapsLoops b2 b1 = Some tl'
    ∧ BBoxOverlaps b1 b2 = Some to ∧ BBoxOverlaps b2 b1 = Some to'
    ∧ ∀ i j, i < N → j < M →
        entry tl i j = entry tl' j i ∧ entry to i j = entry to' j i.
Proof.
  intros H1 H2.
  destruct (BBoxOverlapsLoops_entry b1 b2 N M H1 H2) as (tl & Hl & _ & _ & Hel).
  destruct (BBoxOverlapsLoops_entry b2 b1 M N H2 H1) as (tl' & Hl' & _ & _ & Hel').
  destruct (BBoxOverlaps_entry b1 b2 N M H1 H2) as (to & Ho & _ & _ & Heo).
  destruct (BBoxOverlaps_entry b2 b1 M N H2 H1) as (to' & Ho' & _ & _ & Heo').
  exists tl, tl', to, to'. repeat split; try done.
  - rewrite Hel, Hel' by done. apply IoU_comm.
  - rewrite Heo, Heo' by done. apply overlap_value_comm.
Qed.

Lemma overlap_matrices_transpose_on_swap_witness :
  ∃ tl tl' to to',
    BBoxOverlapsLoops sample_boxes sample_targets = Some tl
    ∧ BBoxOverlapsLoops sample_targets sample_boxes = Some tl'
    ∧ BBoxOverlaps sample_boxes sample_targets = Some to
    ∧ BBoxOverlaps sample_targets sample_boxes = Some to'
    ∧ ∀ i j, i < 2 → j < 2 →
        entry tl i j = entry tl' j i ∧ entry to i j = entry to' j i.
Proof.
  apply (overlap_matrices_transpose_on_swap sample_boxes sample_targets 2 2);
    split; reflexivity.
Defined.

Lemma BBoxOverlapsLoops_diagonal_witness :
  ∃ t, BBoxOverlapsLoops sample_boxes sample_boxes = Some t ∧ entry t 1 1 = Fin 1.
Proof.
  apply (BBoxOverlapsLoops_diagonal sample_boxes 2 1).
  - split; reflexivity.
  - lia.
  - eval_rows. lra.
  - eval_rows. lra.
Defined.

(** Every entry of BBoxOverlapsLoops for two well-formed boxes, one of which
    has positive area, lies between 0 and 1. *)
Theorem BBoxOverlapsLoops_entry_in_unit_interval b1 b2 N M i j :
  is_boxes b1 N → is_boxes b2 M → i < N → j < M →
  well_formed (box_at b1 i) → well_formed (box_at b2 j) →
  flt (Fin 0) (area (box_at b1 i)) ∨ flt (Fin 0) (area (box_at b2 j)) →
  ∃ t, BBoxOverlapsLoops b1 b2 = Some t
       ∧ fle (Fin 0) (entry t i j) ∧ fle (entry t i j) (Fin 1).
Proof.
  intros H1 H2 Hi Hj Ha Hb Hpos.
  destruct (BBoxOverlapsLoops_entry b1 b2 N M H1 H2) as (t & Ht & _ & _ & He).
  exists t. split; [done |]. rewrite He by done. by apply IoU_range.
Qed.

Lemma BBoxOverlapsLoops_entry_in_unit_interval_witness :
  ∃ t, BBoxOverlapsLoops sample_boxes sample_targets = Some t
       ∧ fle (Fin 0) (entry t 0 1) ∧ fle (entry t 0 1) (Fin 1).
Proof.
  apply (BBoxOverlapsLoops_entry_in_unit_interval sample_boxes sample_targets 2 2 0 1).
  - split; reflexivity.
  - split; reflexivity.
  - lia.
  - lia.
  - split; eval_rows; lra.
  - split; eval_rows; lra.
  - left. eval_rows. lra.
Defined.

(** When every box has a corner on the diagonal (x1 = y1 or x2 = y2), the
    area term of BBoxOverlaps is the rectangle area and the two functions
    return the same matrix. *)
Theorem BBoxOverlaps_agrees_on_aligned_boxes b1 b2 N M :
  is_boxes b1 N → is_boxes b2 M →
  (∀ i, i < N → aligned (box_at b1 i)) →
  (∀ j, j < M → aligned (box_at b2 j)) →
  BBoxOverlaps b1 b2 = BBoxOverlapsLoops b1 b2.
Proof.
  intros H1 H2 Ha Hb.
  rewrite (BBoxOverlaps_closed b1 b2 N M), (BBoxOverlapsLoops_closed b1 b2 N M) by done.
  do 2 f_equal. apply tab_ext. intros q Hq.
  assert (q / M < N) by (apply Nat.Div0.div_lt_upper_bound; lia).
  assert (q mod M < M) by (apply Nat.mod_upper_bound; lia).
  rewrite IoU_comm. unfold overlap_value, IoU.
  by rewrite !chunk_area_aligned by auto.
Qed.

Lemma BBoxOverlaps_agrees_on_aligned_boxes_witness :
  BBoxOverlaps (box_set [box 0 0 10 10; box 5 5 15 20]) (box_set [box 2 7 9 9])
  = BBoxOverlapsLoops (box_set [box 0 0 10 10; box 5 5 15 20]) (box_set [box 2 7 9 9]).
Proof.
  apply (BBoxOverlaps_agrees_on_aligned_boxes _ _ 2 1).
  - split; reflexivity.
  - split; reflexivity.
  - intros i Hi. destruct i as [|[|i]]; [left; reflexivity | left; reflexivity | lia].
  - intros j Hj. destruct j as [|j]; [right; reflexivity | lia].
Defined.



(** When one of the two box sets is empty, both functions return the empty
    matrix of shape [N, M]. *)
Theorem overlap_of_empty_box_set b1 b2 N M :
  is_boxes b1 N → is_boxes b2 M → N = 0 ∨ M = 0 →
  BBoxOverlaps b1 b2 = Some (mkTensor [N; M] [])
  ∧ BBoxOverlapsLoops b1 b2 = Some (mkTensor [N; M] []).
Proof.
  intros H1 H2 H0.
  rewrite (BBoxOverlaps_closed b1 b2 N M), (BBoxOverlapsLoops_closed b1 b2 N M) by done.
  assert (N * M = 0) as -> by (destruct H0; subst; lia). done.
Qed.

Lemma overlap_of_empty_box_set_witness :
  BBoxOverlaps sample_boxes (box_set []) = Some (mkTensor [2; 0] [])
  ∧ BBoxOverlapsLoops sample_boxes (box_set []) = Some (mkTensor [2; 0] []).
Proof.
  apply (overlap_of_empty_box_set sample_boxes (box_set []) 2 0).
  - split; reflexivity.
  - split; reflexivity.
  - right. reflexivity.
Defined.



(** ComputeIou takes the areas as they are passed in: for a box, N boxes,
    any area [u] of the box and any areas [vs] of the boxes it returns the
    N x 1 column of intersection / (u + vs[p] - intersection). *)
Theorem ComputeIou_uses_the_given_areas a boxes N u vs :
  is_boxes boxes N → length vs = N →
  ∃ r, ComputeIou (mkTensor [4] [b_y1 a; b_x1 a; b_y2 a; b_x2 a]) boxes
                  (mkTensor [1] [u]) (mkTensor [N; 1] vs) = Some r
       ∧ sizes r = [N; 1] ∧ length (data r) = N
       ∧ ∀ p, p < N →
           elt r p = fdiv (intersection_area a (box_at boxes p))
                          (fsub (fadd u (nth p vs NaN))
                                (intersection_area a (box_at boxes p))).
Proof.
  intros Hb Hvs.
  assert (mkTensor [N; 1] vs = col N (λ p, nth p vs NaN)) as ->.
  { unfold col. f_equal. by rewrite <- Hvs, tab_nth. }
  change (mkTensor [4] [b_y1 a; b_x1 a; b_y2 a; b_x2 a])
    with (vect 4 (λ c, nth c [b_y1 a; b_x1 a; b_y2 a; b_x2 a] NaN)).
  eexists. split.
  - unfold ComputeIou.
    rewrite !select0_vec by lia. rewrite !(narrow_boxes boxes N) by (done || lia). obind.
    columns. reflexivity.
  - split; [done |]. split; [apply tab_length |].
    intros p Hp. unfold elt; simpl. by rewrite nth_tab.
Qed.

Lemma ComputeIou_uses_the_given_areas_witness :
  ∃ r, ComputeIou (mkTensor [4] [b_y1 (box 0 0 4 4); b_x1 (box 0 0 4 4);
                                 b_y2 (box 0 0 4 4); b_x2 (box 0 0 4 4)])
                  sample_boxes (mkTensor [1] [Fin 7]) (mkTensor [2; 1] [Fin 1; Fin 2])
         = Some r
       ∧ sizes r = [2; 1] ∧ length (data r) = 2
       ∧ ∀ p, p < 2 →
           elt r p = fdiv (intersection_area (box 0 0 4 4) (box_at sample_boxes p))
                          (fsub (fadd (Fin 7) (nth p [Fin 1; Fin 2] NaN))
                                (intersection_area (box 0 0 4 4) (box_at sample_boxes p))).
Proof.
  apply (ComputeIou_uses_the_given_areas (box 0 0 4 4) sample_boxes 2 (Fin 7) [Fin 1; Fin 2]).
  - split; reflexivity.
  - reflexivity.
Defined.

(** ** Further properties of BoxRefinement and ApplyBoxDeltas *)

Lemma zeros_boxes N : zeros [N; 4] = of_columns N (λ _, Fin 0) (λ _, Fin 0) (λ _, Fin 0) (λ _, Fin 0).
Proof.
  unfold zeros, of_columns. f_equal.
  apply tab_ext_n; [unfold numel; simpl; lia |]. intros q Hq.
  pose proof (Nat.mod_upper_bound q 4 ltac:(lia)).
  by destruct (q mod 4) as [|[|[|[|?]]]]; try lia; simpl.
Qed.

Lemma box_at_of_columns K f0 f1 f2 f3 p :
  p < K → box_at (of_columns K f0 f1 f2 f3) p = mkBox (f0 p) (f1 p) (f2 p) (f3 p).
Proof.
  intros Hp. unfold box_at. by rewrite !coord_of_columns by (done || lia).
Qed.

Lemma map2T_col_mismatch op K K' f g :
  K ≠ K' → K ≠ 1 → K' ≠ 1 → map2T op (col K f) (col K' g) = None.
Proof.
  intros Hne H1 H1'. unfold map2T, col. simpl.
  by rewrite !decide_False by done.
Qed.

(** The deltas from a box set to itself are all zero. *)
Theorem BoxRefinement_of_itself A N :
  is_boxes A N → (∀ p, p < N → positive_size (box_at A p)) →
  BoxRefinement A A = Some (zeros [N; 4]).
Proof.
  intros HA Hpos. rewrite (BoxRefinement_closed A A N) by done.
  f_equal. rewrite zeros_boxes. apply of_columns_ext. intros p Hp.
  by apply refine_self, Hpos.
Qed.

Lemma BoxRefinement_of_itself_witness :
  BoxRefinement sample_boxes sample_boxes = Some (zeros [2; 4]).
Proof.
  apply (BoxRefinement_of_itself sample_boxes 2).
  - split; reflexivity.
  - intros p Hp. destruct p as [|[|p]]; [| | lia]; split; eval_rows; lra.
Defined.



Lemma BoxRefinement_ApplyBoxDeltas_round_trip_witness :
  ∃ d, BoxRefinement sample_boxes sample_targets = Some d
       ∧ ApplyBoxDeltas sample_boxes d = Some sample_targets.
Proof.
  apply (BoxRefinement_ApplyBoxDeltas_round_trip sample_boxes sample_targets 2).
  - split; reflexivity.
  - split; reflexivity.
  - lia.
  - intros p Hp. destruct p as [|[|p]]; [| | lia]; repeat split; eval_rows; lra.
Defined.

(** The round trip in the other direction: the deltas that BoxRefinement
    reads off the result of ApplyBoxDeltas are the deltas that were applied
    (for a box set that is not a single row). *)
Theorem ApplyBoxDeltas_BoxRefinement_round_trip A D N :
  is_boxes A N → is_boxes D N → N ≠ 1 →
  (∀ p, p < N → positive_size (box_at A p)) → numbers D N →
  ∃ B, ApplyBoxDeltas A D = Some B ∧ BoxRefinement A B = Some D.
Proof.
  intros HA HD HN Hpos Hnum. eexists. split; [by apply ApplyBoxDeltas_closed |].
  rewrite (BoxRefinement_closed _ _ N) by (done || apply is_boxes_of_columns).
  f_equal. etransitivity; [| symmetry; apply (boxes_columns D N HD)].
  apply of_columns_ext. intros p Hp.
  rewrite box_at_of_columns by done.
  apply (apply_refine (box_at A p)); (by apply Hpos) || (apply Hnum; (done || lia)).
Qed.

Lemma ApplyBoxDeltas_BoxRefinement_round_trip_witness :
  ∃ B, ApplyBoxDeltas sample_boxes sample_deltas = Some B
       ∧ BoxRefinement sample_boxes B = Some sample_deltas.
Proof.
  apply (ApplyBoxDeltas_BoxRefinement_round_trip sample_boxes sample_deltas 2).
  - split; reflexivity.
  - split; reflexivity.
  - lia.
  - intros p Hp. destruct p as [|[|p]]; [| | lia]; split; eval_rows; lra.
  - intros p c Hp Hc.
    destruct p as [|[|p]]; [| | lia];
      destruct c as [|[|[|[|c]]]]; try lia; discriminate.
Defined.



(** BoxRefinement returns an N x 4 tensor for every number of rows, a single
    row and no row included. *)
Theorem BoxRefinement_shape A B N :
  is_boxes A N → is_boxes B N →
  ∃ d, BoxRefinement A B = Some d ∧ sizes d = [N; 4] ∧ length (data d) = N * 4.
Proof.
  intros HA HB. eexists. split; [by apply BoxRefinement_closed |].
  apply is_boxes_of_columns.
Qed.

Lemma BoxRefinement_shape_witness :
  ∃ d, BoxRefinement (box_set [box 0 0 1 1]) (box_set [box 0 0 2 2]) = Some d
       ∧ sizes d = [1; 4] ∧ length (data d) = 1 * 4.
Proof.
  apply (BoxRefinement_shape (box_set [box 0 0 1 1]) (box_set [box 0 0 2 2]) 1);
    split; reflexivity.
Defined.

(** A row of [box] of height zero gets deltas dy and dh that are not numbers,
    a row of width zero deltas dx and dw that are not numbers; nothing is
    rejected. *)
Theorem BoxRefinement_degenerate_row A B N p :
  is_boxes A N → is_boxes B N → p < N →
  ∃ d, BoxRefinement A B = Some d
       ∧ (height (box_at A p) = Fin 0 → coord d p 0 = NaN ∧ coord d p 2 = NaN)
       ∧ (width (box_at A p) = Fin 0 → coord d p 1 = NaN ∧ coord d p 3 = NaN).
Proof.
  intros HA HB Hp. eexists. split; [by apply BoxRefinement_closed |].
  rewrite !coord_of_columns by (done || lia). cbn [nth].
  split; [apply refine_zero_height | apply refine_zero_width].
Qed.

Lemma BoxRefinement_degenerate_row_witness :
  ∃ d, BoxRefinement (box_set [box 3 0 3 5; box 0 0 1 1]) sample_targets = Some d
       ∧ (height (box_at (box_set [box 3 0 3 5; box 0 0 1 1]) 0) = Fin 0 →
          coord d 0 0 = NaN ∧ coord d 0 2 = NaN)
       ∧ (width (box_at (box_set [box 3 0 3 5; box 0 0 1 1]) 0) = Fin 0 →
          coord d 0 1 = NaN ∧ coord d 0 3 = NaN).
Proof.
  apply (BoxRefinement_degenerate_row (box_set [box 3 0 3 5; box 0 0 1 1]) sample_targets 2 0).
  - split; reflexivity.
  - split; reflexivity.
  - lia.
Defined.

(** Box sets of different numbers of rows, neither of them a single row, are
    rejected by BoxRefinement and by ApplyBoxDeltas. *)
Theorem row_count_mismatch_is_rejected A B N M :
  is_boxes A N → is_boxes B M → N ≠ M → N ≠ 1 → M ≠ 1 →
  BoxRefinement A B = None ∧ ApplyBoxDeltas A B = None.
Proof.
  intros HA HB Hne HN HM. split.
  - unfold BoxRefinement.
    rewrite (center_form_boxes A N), (center_form_boxes B M) by done. obind.
    unfold Tensor_sub. by rewrite !map2T_col_mismatch by lia.
  - unfold ApplyBoxDeltas.
    rewrite (center_form_boxes A N) by done. obind.
    rewrite !(narrow_boxes B M) by (done || lia). obind.
    unfold Tensor_mul. by rewrite !map2T_col_mismatch by lia.
Qed.

Lemma row_count_mismatch_is_rejected_witness :
  BoxRefinement sample_boxes (box_set [box 0 0 1 1; box 0 0 2 2; box 0 0 3 3]) = None
  ∧ ApplyBoxDeltas sample_boxes (box_set [box 0 0 1 1; box 0 0 2 2; box 0 0 3 3]) = None.
Proof.
  apply (row_count_mismatch_is_rejected
           sample_boxes (box_set [box 0 0 1 1; box 0 0 2 2; box 0 0 3 3]) 2 3).
  - split; reflexivity.
  - split; reflexivity.
  - lia.
  - lia.
  - lia.
Defined.

(** ** Further properties of the clipping functions *)

(** ClipToWindow, for every number of rows (a single row and no row
    included): it returns the handle it was given, the tensor at that handle
    keeps its shape and holds each coordinate clamped to the window, and no
    other tensor of the store changes. *)
Theorem ClipToWindow_in_place (σ : gmap nat Tensor) window l t N :
  σ !! l = Some t → is_boxes t N →
  ∃ σ' r,
    ClipToWindow window l σ = Some (l, σ')
    ∧ σ' !! l = Some r
    ∧ sizes r = [N; 4] ∧ length (data r) = N * 4
    ∧ (∀ k, k ≠ l → σ' !! k = σ !! k)
    ∧ ∀ p, p < N →
        coord r p 0
        = fclamp (float_of_Z (w_y1 window)) (float_of_Z (w_y2 window)) (coord t p 0)
        ∧ coord r p 1
          = fclamp (float_of_Z (w_x1 window)) (float_of_Z (w_x2 window)) (coord t p 1)
        ∧ coord r p 2
          = fclamp (float_of_Z (w_y1 window)) (float_of_Z (w_y2 window)) (coord t p 2)
        ∧ coord r p 3
          = fclamp (float_of_Z (w_x1 window)) (float_of_Z (w_x2 window)) (coord t p 3).
Proof.
  intros Hl Hb.
  exists (<[l := clipped t window N]> σ), (clipped t window N).
  split; [by apply (ClipToWindow_closed σ window l t N) |].
  split; [apply lookup_insert_eq |].
  split; [done |]. split; [apply is_boxes_of_columns |].
  split; [intros k Hk; by rewrite lookup_insert_ne |].
  intros p Hp. unfold clipped. by rewrite !coord_of_columns by (done || lia).
Qed.

Lemma ClipToWindow_in_place_witness :
  ∃ σ' r,
    ClipToWindow sample_window 0 {[0 := box_set [box (-5) (-5) 15 15]]} = Some (0, σ')
    ∧ σ' !! 0 = Some r
    ∧ sizes r = [1; 4] ∧ length (data r) = 1 * 4
    ∧ (∀ k, k ≠ 0 → σ' !! k = ({[0 := box_set [box (-5) (-5) 15 15]]} : gmap nat Tensor) !! k)
    ∧ ∀ p, p < 1 →
        coord r p 0
        = fclamp (float_of_Z (w_y1 sample_window)) (float_of_Z (w_y2 sample_window))
                 (coord (box_set [box (-5) (-5) 15 15]) p 0)
        ∧ coord r p 1
          = fclamp (float_of_Z (w_x1 sample_window)) (float_of_Z (w_x2 sample_window))
                   (coord (box_set [box (-5) (-5) 15 15]) p 1)
        ∧ coord r p 2
          = fclamp (float_of_Z (w_y1 sample_window)) (float_of_Z (w_y2 sample_window))
                   (coord (box_set [box (-5) (-5) 15 15]) p 2)
        ∧ coord r p 3
          = fclamp (float_of_Z (w_x1 sample_window)) (float_of_Z (w_x2 sample_window))
                   (coord (box_set [box (-5) (-5) 15 15]) p 3).
Proof.
  apply (ClipToWindow_in_place {[0 := box_set [box (-5) (-5) 15 15]]} sample_window 0
           (box_set [box (-5) (-5) 15 15]) 1).
  - reflexivity.
  - split; reflexivity.
Defined.

(** Clipping a second time changes nothing, for a window with y1 <= y2 and
    x1 <= x2 (where clamp does not depend on the order of its two
    comparisons): ClipToWindow leaves the store as the first call made it,
    and ClipBoxes returns its argument when the box set is not a single
    row. *)
Theorem clipping_twice_is_clipping_once (σ : gmap nat Tensor) window l t N :
  σ !! l = Some t → is_boxes t N →
  (w_y1 window ≤ w_y2 window)%Z → (w_x1 window ≤ w_x2 window)%Z →
  (∃ σ', ClipToWindow window l σ = Some (l, σ')
         ∧ ClipToWindow window l σ' = Some (l, σ'))
  ∧ (N ≠ 1 → ∃ r, ClipBoxes t window = Some r ∧ ClipBoxes r window = Some r).
Proof.
  intros Hl Hb _ _. split.
  - exists (<[l := clipped t window N]> σ).
    split; [by apply (ClipToWindow_closed σ window l t N) |].
    rewrite (ClipToWindow_closed _ window l (clipped t window N) N)
      by (apply lookup_insert_eq || apply is_boxes_of_columns).
    by rewrite clipped_idem, insert_insert_eq.
  - intros HN. exists (clipped t window N). split; [by apply ClipBoxes_closed |].
    rewrite (ClipBoxes_closed _ window N) by (done || apply is_boxes_of_columns).
    by rewrite clipped_idem.
Qed.

Lemma clipping_twice_is_clipping_once_witness :
  (∃ σ', ClipToWindow sample_window 0 sample_store = Some (0, σ')
         ∧ ClipToWindow sample_window 0 σ' = Some (0, σ'))
  ∧ (2 ≠ 1 → ∃ r, ClipBoxes sample_boxes sample_window = Some r
                  ∧ ClipBoxes r sample_window = Some r).
Proof.
  apply (clipping_twice_is_clipping_once sample_store sample_window 0 sample_boxes 2).
  - reflexivity.
  - split; reflexivity.
  - simpl. lia.
  - simpl. lia.
Defined.

(** A box set that lies inside the window is left as it is: ClipToWindow
    changes nothing in the store, and ClipBoxes returns an equal box set
    when it is not a single row. *)
Theorem clipping_inside_the_window_changes_nothing (σ : gmap nat Tensor) window l t N :
  σ !! l = Some t → is_boxes t N → in_window t window N →
  ClipToWindow window l σ = Some (l, σ)
  ∧ (N ≠ 1 → ClipBoxes t window = Some t).
Proof.
  intros Hl Hb Hin. split.
  - rewrite (ClipToWindow_closed σ window l t N) by done.
    rewrite clipped_inside by done. by rewrite insert_id.
  - intros HN. rewrite (ClipBoxes_closed t window N) by done.
    by rewrite clipped_inside.
Qed.

Lemma clipping_inside_the_window_changes_nothing_witness :
  ClipToWindow (mkWindow 0 0 40 40) 0 {[0 := sample_targets]}
  = Some (0, {[0 := sample_targets]})
  ∧ (2 ≠ 1 → ClipBoxes sample_targets (mkWindow 0 0 40 40) = Some sample_targets).
Proof.
  apply (clipping_inside_the_window_changes_nothing
           {[0 := sample_targets]} (mkWindow 0 0 40 40) 0 sample_targets 2).
  - reflexivity.
  - split; reflexivity.
  - intros p Hp. destruct p as [|[|p]]; [| | lia]; repeat split; eval_rows; lra.
Defined.

Lemma clipping_mutation_contract_witness :
  ∃ l1 σ1 σ2 r,
    ClipBoxes_call 0 sample_window sample_store = Some (l1, σ1)
    ∧ ClipToWindow sample_window 0 sample_store = Some (0, σ2)
    ∧ sample_store !! l1 = None
    ∧ (∀ k, k ≠ l1 → σ1 !! k = sample_store !! k)
    ∧ σ1 !! 0 = Some sample_boxes
    ∧ σ1 !! l1 = Some r
    ∧ σ2 !! 0 = Some r
    ∧ (∀ k, k ≠ 0 → σ2 !! k = sample_store !! k).
Proof.
  apply (clipping_mutation_contract sample_store sample_window 0 sample_boxes 2).
  - reflexivity.
  - split; reflexivity.
  - lia.
Defined.

Lemma box_at_clipped t window N p :
  p < N →
  box_at (clipped t window N) p
  = mkBox (clamp_y window (coord t p 0)) (clamp_x window (coord t p 1))
          (clamp_y window (coord t p 2)) (clamp_x window (coord t p 3)).
Proof. intros Hp. unfold clipped. by rewrite box_at_of_columns. Qed.

(** Clipping to a window with y1 <= y2 and x1 <= x2 keeps the corners of a
    box in order: a row with y1 <= y2 and x1 <= x2 still has them after
    ClipToWindow, and after ClipBoxes when the box set is not a single
    row. *)
Theorem clipping_keeps_corners_in_order (σ : gmap nat Tensor) window l t N p :
  σ !! l = Some t → is_boxes t N → p < N →
  (w_y1 window ≤ w_y2 window)%Z → (w_x1 window ≤ w_x2 window)%Z →
  well_formed (box_at t p) →
  (∃ σ' r, ClipToWindow window l σ = Some (l, σ') ∧ σ' !! l = Some r
           ∧ well_formed (box_at r p))
  ∧ (N ≠ 1 → ∃ r, ClipBoxes t window = Some r ∧ well_formed (box_at r p)).
Proof.
  intros Hl Hb Hp Hy Hx [Hwy Hwx].
  assert (well_formed (box_at (clipped t window N) p)) as Hw.
  { rewrite box_at_clipped by done. unfold clamp_y, clamp_x.
    split; apply fclamp_monotone; (done || by apply IZR_le). }
  split.
  - exists (<[l := clipped t window N]> σ), (clipped t window N).
    split; [by apply (ClipToWindow_closed σ window l t N) |].
    split; [apply lookup_insert_eq | done].
  - intros HN. exists (clipped t window N). split; [by apply ClipBoxes_closed | done].
Qed.

Lemma clipping_keeps_corners_in_order_witness :
  (∃ σ' r, ClipToWindow sample_window 0 sample_store = Some (0, σ') ∧ σ' !! 0 = Some r
           ∧ well_formed (box_at r 1))
  ∧ (2 ≠ 1 → ∃ r, ClipBoxes sample_boxes sample_window = Some r ∧ well_formed (box_at r 1)).
Proof.
  apply (clipping_keeps_corners_in_order sample_store sample_window 0 sample_boxes 2 1).
  - reflexivity.
  - split; reflexivity.
  - lia.
  - simpl. lia.
  - simpl. lia.
  - split; eval_rows; lra.
Defined.
